(** * jam: document identity, de-duplication and the lookahead iterator

  A shallow embedding of the reusable core of the [jam] repository:

  - [jam/struct/core/struct.py]: the lookahead iterator [NIterator];
  - [jam/ir/document_store/base/store.py]: [Document], [Label] and the
    duplicate handling of [BaseDocStore];
  - [jam/tdk/rise.py]: the user document and the authorization loop of
    [fn_set_name].

  Python objects live in an explicit heap, exceptions are values of the
  type [Exc], and everything that depends on the running process (the
  entropy behind [uuid4], the seed of the builtin [hash]) is read from an
  explicit [Process]. *)

From Stdlib Require Import ZArith NArith String Ascii List Lia Bool DecimalString.
From stdpp Require Import base option list gmap strings.

Import ListNotations.
Local Open Scope string_scope.
Local Open Scope list_scope.

#[local] Set Warnings "-clear-no-such-hyp,-register-all".

(** ** Python exceptions raised by the modelled code *)

Inductive Exc : Type :=
| StopIteration
| TypeError
| ValueError (msg : string)
| AttributeError
| KeyError (key : string)
| NameError (name : string).

(** The outcome of a call: an exception or a returned value. *)
Definition Res (A : Type) : Type := (Exc + A)%type.

(** ** jam/struct/core/struct.py *)

Module NIterator.
Section WithElements.

(** The elements are Python objects; [none] is the object [None], which
    the constructor stores in [_the_next]. *)
Context {T : Type} (none : T).

(** [it] is the state of [iter(S)] for a finite sequence: the elements
    not yet produced. *)
Record t : Type := mk {
  it : list T;
  _has_next : option bool;
  _the_next : T
}.

(** [next(self.it)] on the iterator of a finite sequence. *)
Definition py_next (l : list T) : Res T * list T :=
  match l with
  | [] => (inl StopIteration, [])
  | x :: r => (inr x, r)
  end.

Definition __init__ (S : list T) : t :=
  {| it := S; _has_next := None; _the_next := none |}.

(** Truth value of [self._has_next], which is [None], [False] or [True]. *)
Definition truthy (b : option bool) : bool :=
  match b with Some true => true | _ => false end.

Definition next (self : t) : Res T * t :=
  if truthy (_has_next self) then
    (inr (_the_next self),
     {| it := it self; _has_next := None; _the_next := _the_next self |})
  else
    match py_next (it self) with
    | (inl e, l) =>
        (inl e, {| it := l; _has_next := _has_next self;
                   _the_next := _the_next self |})
    | (inr x, l) =>
        (inr x, {| it := l; _has_next := None;
                   _the_next := _the_next self |})
    end.

Definition has_next (self : t) : bool * t :=
  match _has_next self with
  | None =>
      match py_next (it self) with
      | (inl _, l) =>
          (false, {| it := l; _has_next := Some false;
                     _the_next := _the_next self |})
      | (inr x, l) =>
          (true, {| it := l; _has_next := Some true; _the_next := x |})
      end
  | Some b => (b, self)
  end.

(** *** Client programs: any interleaving of the two methods *)

Inductive call : Type := CallNext | CallHasNext.

Inductive event : Type :=
| Returned (r : Res T)
| Peeked (b : bool).

Fixpoint run (cs : list call) (self : t) : list event * t :=
  match cs with
  | [] => ([], self)
  | CallNext :: cs' =>
      let (r, self') := next self in
      let (evs, self'') := run cs' self' in
      (Returned r :: evs, self'')
  | CallHasNext :: cs' =>
      let (b, self') := has_next self in
      let (evs, self'') := run cs' self' in
      (Peeked b :: evs, self'')
  end.

(** What the [next()] calls of a trace returned. *)
Fixpoint returned (evs : list event) : list (Res T) :=
  match evs with
  | [] => []
  | Returned r :: evs' => r :: returned evs'
  | Peeked _ :: evs' => returned evs'
  end.

Fixpoint count_next (cs : list call) : nat :=
  match cs with
  | [] => 0
  | CallNext :: cs' => S (count_next cs')
  | CallHasNext :: cs' => count_next cs'
  end.

(** Iterating the sequence directly: [n] calls of [next(iter(S))]. *)
Fixpoint iterate (n : nat) (l : list T) : list (Res T) :=
  match n with
  | O => []
  | S n' => let (r, l') := py_next l in r :: iterate n' l'
  end.

(** [n] calls of [has_next()] in a row; the answers and the final state. *)
Fixpoint peek_n (n : nat) (self : t) : list bool * t :=
  match n with
  | O => ([], self)
  | S n' =>
      let (b, self') := has_next self in
      let (bs, self'') := peek_n n' self' in
      (b :: bs, self'')
  end.

(** The elements still to be produced: the cached one, if any, first. *)
Definition pending (self : t) : list T :=
  if truthy (_has_next self) then _the_next self :: it self else it self.

(** A state that answered [False] has an exhausted underlying iterator. *)
Definition consistent (self : t) : Prop :=
  _has_next self = Some false -> it self = [].

End WithElements.
End NIterator.

(** ** The Python runtime and libraries the code calls

    Text is a sequence of bytes (a Python [str] in its UTF-8 encoding),
    machine words are [N] with the wrap-around written out. *)

Definition bytes_of_string (s : string) : list N :=
  map N_of_ascii (list_ascii_of_string s).

(** [int.from_bytes(bs, 'little')] and [int.from_bytes(bs, 'big')]. *)
Definition from_bytes_le (bs : list N) : N :=
  fold_right (fun b acc => b + 256 * acc)%N 0%N bs.

Definition from_bytes_be (bs : list N) : N :=
  fold_left (fun acc b => 256 * acc + b)%N bs 0%N.

(** [n.to_bytes(len, 'little')] and [n.to_bytes(len, 'big')], truncating. *)
Fixpoint to_bytes_le (len : nat) (n : N) : list N :=
  match len with
  | O => []
  | S len' => (n mod 256)%N :: to_bytes_le len' (n / 256)%N
  end.

Definition to_bytes_be (len : nat) (n : N) : list N := rev (to_bytes_le len n).

(** Split a list into chunks of [n] elements; [fuel] bounds their number. *)
Fixpoint chunks {A} (fuel n : nat) (l : list A) : list (list A) :=
  match fuel, l with
  | O, _ => []
  | _, [] => []
  | S fuel', _ => firstn n l :: chunks fuel' n (skipn n l)
  end.

(** *** Hexadecimal formatting *)

Definition hex_digit (d : N) : ascii :=
  if (d <? 10)%N then ascii_of_N (48 + d) else ascii_of_N (87 + d).

(** The digits of [n], most significant first, in front of [acc]; [fuel]
    bounds the number of digits. *)
Fixpoint hex_digits (fuel : nat) (n : N) (acc : string) : string :=
  match fuel with
  | O => acc
  | S fuel' =>
      if (n =? 0)%N then acc
      else hex_digits fuel' (n / 16)%N (String (hex_digit (n mod 16)%N) acc)
  end.

(** [format(n, 'x')]: no leading zero, ["0"] for zero.  A number has no
    more hexadecimal digits than bits. *)
Definition format_x (n : N) : string :=
  if (n =? 0)%N then "0" else hex_digits (N.to_nat (N.size n)) n "".

(** Zero padding on the left up to a minimal width, as the [0w] of a format
    specification does. *)
Fixpoint zeros (k : nat) : string :=
  match k with
  | O => ""
  | S k' => String "0" (zeros k')
  end.

Definition zero_pad (w : nat) (s : string) : string :=
  zeros (w - String.length s) ++ s.

(** ["{:02x}".format(n)] *)
Definition format_02x (n : N) : string := zero_pad 2 (format_x n).

(** ['%032x' % n] *)
Definition format_032x (n : N) : string := zero_pad 32 (format_x n).

(** The value a string of hexadecimal digits denotes, continuing from [a];
    a character that is no lower-case digit counts as 16 and so is seen. *)
Definition hex_val (c : ascii) : N :=
  let n := N_of_ascii c in
  if ((48 <=? n) && (n <=? 57))%N then (n - 48)%N
  else if ((97 <=? n) && (n <=? 102))%N then (n - 87)%N
  else 16%N.

Fixpoint parse_hex (s : string) (a : N) : N :=
  match s with
  | EmptyString => a
  | String c s' => parse_hex s' (16 * a + hex_val c)%N
  end.

Fixpoint all_hex (s : string) : bool :=
  match s with
  | EmptyString => true
  | String c s' => (hex_val c <? 16)%N && all_hex s'
  end.

(** *** mmh3: MurmurHash3, x64, 128 bits *)

Module mmh3.

Definition w64 (x : N) : N := N.land x 18446744073709551615%N.

Definition rotl64 (x : N) (r : N) : N :=
  w64 (N.lor (N.shiftl x r) (N.shiftr x (64 - r))).

Definition c1 : N := 9782798678568883157%N.   (* 0x87c37b91114253d5 *)
Definition c2 : N := 5545529020109919103%N.   (* 0x4cf5ad432745937f *)

Definition fmix64 (k : N) : N :=
  let k := N.lxor k (N.shiftr k 33) in
  let k := w64 (k * 18397679294719823053) in  (* 0xff51afd7ed558ccd *)
  let k := N.lxor k (N.shiftr k 33) in
  let k := w64 (k * 14181476777654086739) in  (* 0xc4ceb9fe1a85ec53 *)
  N.lxor k (N.shiftr k 33).

Definition mix_k1 (k1 : N) : N := w64 (rotl64 (w64 (k1 * c1)) 31 * c2).
Definition mix_k2 (k2 : N) : N := w64 (rotl64 (w64 (k2 * c2)) 33 * c1).

(** The loop over the 16-byte blocks; returns the state and the tail. *)
Fixpoint body (nblocks : nat) (data : list N) (h1 h2 : N) : N * N * list N :=
  match nblocks with
  | O => (h1, h2, data)
  | S n =>
      let k1 := from_bytes_le (firstn 8 data) in
      let k2 := from_bytes_le (firstn 8 (skipn 8 data)) in
      let h1 := N.lxor h1 (mix_k1 k1) in
      let h1 := w64 (rotl64 h1 27 + h2) in
      let h1 := w64 (h1 * 5 + 1390208809) in       (* 0x52dce729 *)
      let h2 := N.lxor h2 (mix_k2 k2) in
      let h2 := w64 (rotl64 h2 31 + h1) in
      let h2 := w64 (h2 * 5 + 944331445) in        (* 0x38495ab5 *)
      body n (skipn 16 data) h1 h2
  end.

Definition murmurhash3_x64_128 (key : list N) (seed : N) : N * N :=
  let len := length key in
  let '(h1, h2, tail) := body (len / 16) key seed seed in
  let h2 :=
    if (8 <? length tail)%nat
    then N.lxor h2 (mix_k2 (from_bytes_le (skipn 8 tail))) else h2 in
  let h1 :=
    if (0 <? length tail)%nat
    then N.lxor h1 (mix_k1 (from_bytes_le (firstn 8 tail))) else h1 in
  let h1 := N.lxor h1 (N.of_nat len) in
  let h2 := N.lxor h2 (N.of_nat len) in
  let h1 := w64 (h1 + h2) in
  let h2 := w64 (h2 + h1) in
  let h1 := fmix64 h1 in
  let h2 := fmix64 h2 in
  let h1 := w64 (h1 + h2) in
  let h2 := w64 (h2 + h1) in
  (h1, h2).

(** [mmh3.hash128(key, signed=False)], with the default seed 0: the two
    words read as one little-endian integer. *)
Definition hash128 (key : string) : N :=
  let (h1, h2) := murmurhash3_x64_128 (bytes_of_string key) 0 in
  (h1 + 18446744073709551616 * h2)%N.

End mmh3.

(** *** hashlib: MD5 and SHA-1, which [uuid3] and [uuid5] are built on *)

Module hashlib.

Definition w32 (x : N) : N := N.land x 4294967295%N.

Definition rotl32 (x : N) (r : N) : N :=
  w32 (N.lor (N.shiftl x r) (N.shiftr x (32 - r))).

Definition not32 (x : N) : N := N.lxor x 4294967295%N.

(** The message, the byte 0x80, zeros up to 56 modulo 64. *)
Definition pad_to_56 (msg : list N) : list N :=
  let len := length msg in
  msg ++ [128%N] ++ repeat 0%N ((55 + 64 - len mod 64) mod 64).

Definition md5_K : list N :=
  [ 3614090360; 3905402710;  606105819; 3250441966;
    4118548399; 1200080426; 2821735955; 4249261313;
    1770035416; 2336552879; 4294925233; 2304563134;
    1804603682; 4254626195; 2792965006; 1236535329;
    4129170786; 3225465664;  643717713; 3921069994;
    3593408605;   38016083; 3634488961; 3889429448;
     568446438; 3275163606; 4107603335; 1163531501;
    2850285829; 4243563512; 1735328473; 2368359562;
    4294588738; 2272392833; 1839030562; 4259657740;
    2763975236; 1272893353; 4139469664; 3200236656;
     681279174; 3936430074; 3572445317;   76029189;
    3654602809; 3873151461;  530742520; 3299628645;
    4096336452; 1126891415; 2878612391; 4237533241;
    1700485571; 2399980690; 4293915773; 2240044497;
    1873313359; 4264355552; 2734768916; 1309151649;
    4149444226; 3174756917;  718787259; 3951481745 ]%N.

Definition md5_s : list N :=
  [ 7; 12; 17; 22; 7; 12; 17; 22; 7; 12; 17; 22; 7; 12; 17; 22;
    5;  9; 14; 20; 5;  9; 14; 20; 5;  9; 14; 20; 5;  9; 14; 20;
    4; 11; 16; 23; 4; 11; 16; 23; 4; 11; 16; 23; 4; 11; 16; 23;
    6; 10; 15; 21; 6; 10; 15; 21; 6; 10; 15; 21; 6; 10; 15; 21 ]%N.

Definition md5_round (M : list N) (st : N * N * N * N) (i : nat)
  : N * N * N * N :=
  let '(A, B, C, D) := st in
  let '(F, g) :=
    if (i <? 16)%nat then
      (N.lor (N.land B C) (N.land (not32 B) D), i)
    else if (i <? 32)%nat then
      (N.lor (N.land D B) (N.land (not32 D) C), (5 * i + 1) mod 16)
    else if (i <? 48)%nat then
      (N.lxor (N.lxor B C) D, (3 * i + 5) mod 16)
    else
      (N.lxor C (N.lor B (not32 D)), (7 * i) mod 16) in
  let F := w32 (F + A + nth i md5_K 0 + nth g M 0)%N in
  (D, w32 (B + rotl32 F (nth i md5_s 0))%N, B, C).

Definition md5_block (st : N * N * N * N) (block : list N) : N * N * N * N :=
  let M := map from_bytes_le (chunks 16 4 block) in
  let '(a0, b0, c0, d0) := st in
  let '(A, B, C, D) := fold_left (md5_round M) (seq 0 64) st in
  (w32 (a0 + A), w32 (b0 + B), w32 (c0 + C), w32 (d0 + D))%N.

(** [hashlib.md5(msg).digest()] *)
Definition md5 (msg : list N) : list N :=
  let padded := pad_to_56 msg ++ to_bytes_le 8 (8 * N.of_nat (length msg)) in
  let '(a, b, c, d) :=
    fold_left md5_block (chunks (length padded) 64 padded)
      (1732584193, 4023233417, 2562383102, 271733878)%N in
  to_bytes_le 4 a ++ to_bytes_le 4 b ++ to_bytes_le 4 c ++ to_bytes_le 4 d.

(** The message schedule of SHA-1, newest word first. *)
Fixpoint sha1_schedule (n : nat) (w : list N) : list N :=
  match n with
  | O => w
  | S n' =>
      let x := N.lxor (N.lxor (nth 2 w 0) (nth 7 w 0))
                      (N.lxor (nth 13 w 0) (nth 15 w 0)) in
      sha1_schedule n' (rotl32 x 1 :: w)
  end%N.

Definition sha1_round (st : N * N * N * N * N) (iw : nat * N)
  : N * N * N * N * N :=
  let '(a, b, c, d, e) := st in
  let (i, w) := iw in
  let '(f, k) :=
    if (i <? 20)%nat then
      (N.lor (N.land b c) (N.land (not32 b) d), 1518500249%N)
    else if (i <? 40)%nat then
      (N.lxor (N.lxor b c) d, 1859775393%N)
    else if (i <? 60)%nat then
      (N.lor (N.lor (N.land b c) (N.land b d)) (N.land c d), 2400959708%N)
    else
      (N.lxor (N.lxor b c) d, 3395469782%N) in
  (w32 (rotl32 a 5 + f + e + k + w), a, rotl32 b 30, c, d)%N.

Definition sha1_block (st : N * N * N * N * N) (block : list N)
  : N * N * N * N * N :=
  let w16 := map from_bytes_be (chunks 16 4 block) in
  let w := rev (sha1_schedule 64 (rev w16)) in
  let '(h0, h1, h2, h3, h4) := st in
  let '(a, b, c, d, e) := fold_left sha1_round (combine (seq 0 80) w) st in
  (w32 (h0 + a), w32 (h1 + b), w32 (h2 + c), w32 (h3 + d), w32 (h4 + e))%N.

(** [hashlib.sha1(msg).digest()] *)
Definition sha1 (msg : list N) : list N :=
  let padded := pad_to_56 msg ++ to_bytes_be 8 (8 * N.of_nat (length msg)) in
  let '(h0, h1, h2, h3, h4) :=
    fold_left sha1_block (chunks (length padded) 64 padded)
      (1732584193, 4023233417, 2562383102, 271733878, 3285377520)%N in
  to_bytes_be 4 h0 ++ to_bytes_be 4 h1 ++ to_bytes_be 4 h2
    ++ to_bytes_be 4 h3 ++ to_bytes_be 4 h4.

End hashlib.

(** *** The process: what differs from one run to the next

    [str_hash] is the builtin [hash] on [str], keyed at start-up
    (PYTHONHASHSEED); [urandom n] is the [n]-th byte the entropy source of
    the operating system delivers to this process. *)

Record Process : Type := {
  str_hash : string -> Z;
  urandom : nat -> Byte.byte
}.

(** *** uuid *)

Module uuid.

(** A [UUID] object is its 128-bit integer. *)
Definition NAMESPACE_DNS : N := 0x6ba7b8109dad11d180b400c04fd430c8%N.

(** [UUID(bytes=bs, version=v)]: the variant and version bits are forced. *)
Definition UUID (bs : list N) (version : N) : N :=
  let int := from_bytes_be bs in
  let int := N.ldiff int (N.shiftl 0xc000 48) in
  let int := N.lor int (N.shiftl 0x8000 48) in
  let int := N.ldiff int (N.shiftl 0xf000 64) in
  N.lor int (N.shiftl version 76).

(** [str(u)]: 32 hexadecimal digits in groups of 8-4-4-4-12. *)
Definition str (u : N) : string :=
  let hex := format_032x u in
  substring 0 8 hex ++ "-" ++ substring 8 4 hex ++ "-" ++
  substring 12 4 hex ++ "-" ++ substring 16 4 hex ++ "-" ++
  substring 20 12 hex.

Definition uuid3 (namespace : N) (name : string) : N :=
  UUID (firstn 16 (hashlib.md5 (to_bytes_be 16 namespace ++ bytes_of_string name))) 3.

Definition uuid5 (namespace : N) (name : string) : N :=
  UUID (firstn 16 (hashlib.sha1 (to_bytes_be 16 namespace ++ bytes_of_string name))) 5.

(** [uuid4()] is [UUID(bytes=os.urandom(16), version=4)]; [drawn] bytes of
    the entropy source were consumed before. *)
Definition uuid4 (p : Process) (drawn : nat) : N :=
  UUID (map (fun i => Byte.to_N (urandom p i)) (seq drawn 16)) 4.

End uuid.

(** *** Objects, the heap and the state of the world *)

Definition loc : Type := positive.

(** A Python value: an immutable scalar or a reference to a mutable object.
    A [float] is carried as its bit pattern. *)
Inductive Val : Type :=
| VNone
| VBool (b : bool)
| VInt (z : Z)
| VFloat (bits : N)
| VStr (s : string)
| VRef (l : loc).

(** A [dict] with [str] keys, in insertion order, or a [list]. *)
Inductive Obj : Type :=
| ODict (items : list (string * Val))
| OList (elems : list Val).

Record World : Type := {
  proc : Process;
  drawn : nat;
  heap : gmap loc Obj
}.

Definition set_heap (h : gmap loc Obj) (w : World) : World :=
  {| proc := proc w; drawn := drawn w; heap := h |}.

(** Besides the Python exceptions an outcome can be [inl] of nothing else:
    the two situations the model does not cover are made outcomes of their
    own, so that no theorem can silently rely on them. *)
Inductive Outcome (A : Type) : Type :=
| Returns (a : A)
| Raises (e : Exc)
| NoObject                 (* a reference to no object: no program gets there *)
| Unmodelled.              (* [str] of a float, a dict or a list *)

Arguments Returns {A} a.
Arguments Raises {A} e.
Arguments NoObject {A}.
Arguments Unmodelled {A}.

(** Computations that read and write the world. *)
Definition Py (A : Type) : Type := World -> Outcome A * World.

Definition ret {A} (a : A) : Py A := fun w => (Returns a, w).

Definition raise {A} (e : Exc) : Py A := fun w => (Raises e, w).

Definition bind {A B} (m : Py A) (k : A -> Py B) : Py B :=
  fun w =>
    match m w with
    | (Returns a, w') => k a w'
    | (Raises e, w') => (Raises e, w')
    | (NoObject, w') => (NoObject, w')
    | (Unmodelled, w') => (Unmodelled, w')
    end.

Notation "x <- m ;; k" := (bind m (fun x => k))
  (at level 100, m at next level, right associativity).

Notation "m ;;; k" := (bind m (fun _ => k))
  (at level 100, right associativity).

(** A pure call that may raise. *)
Definition lift {A} (r : Res A) : Py A :=
  match r with
  | inl e => raise e
  | inr a => ret a
  end.

(** A new object at an address not in use. *)
Definition alloc (o : Obj) : Py loc :=
  fun w =>
    let l := fresh (dom (heap w)) in
    (Returns l, set_heap (<[l:=o]> (heap w)) w).

Definition load (l : loc) : Py Obj :=
  fun w =>
    match heap w !! l with
    | Some o => (Returns o, w)
    | None => (NoObject, w)
    end.

Definition store (l : loc) (o : Obj) : Py unit :=
  fun w => (Returns tt, set_heap (<[l:=o]> (heap w)) w).

(** *** dict operations on the items of a [dict] *)

Fixpoint dict_get {A} (k : string) (d : list (string * A)) : option A :=
  match d with
  | [] => None
  | (k', v) :: d' => if String.eqb k k' then Some v else dict_get k d'
  end.

Definition dict_has {A} (k : string) (d : list (string * A)) : bool :=
  match dict_get k d with Some _ => true | None => false end.

(** [d[k] = v]: an existing key keeps its place, a new one goes last. *)
Fixpoint dict_set {A} (k : string) (v : A) (d : list (string * A))
  : list (string * A) :=
  match d with
  | [] => [(k, v)]
  | (k', v') :: d' =>
      if String.eqb k k' then (k, v) :: d' else (k', v') :: dict_set k v d'
  end.

(** [k in l] for a list of strings. *)
Definition str_in (k : string) (l : list string) : bool :=
  existsb (String.eqb k) l.

(** *** Builtins on values *)

(** [bool(v)] *)
Definition truthy (v : Val) : Py bool :=
  match v with
  | VNone => ret false
  | VBool b => ret b
  | VInt z => ret (negb (z =? 0)%Z)
  | VFloat bits => ret (negb ((bits =? 0)%N || (bits =? 2 ^ 63)%N))
  | VStr s => ret (negb (String.eqb s ""))
  | VRef l =>
      o <- load l ;;
      match o with
      | ODict [] | OList [] => ret false
      | _ => ret true
      end
  end.

(** [str(v)] *)
Definition py_str (v : Val) : Py string :=
  match v with
  | VNone => ret "None"
  | VBool true => ret "True"
  | VBool false => ret "False"
  | VInt z => ret (NilZero.string_of_int (Z.to_int z))
  | VStr s => ret s
  | VFloat _ | VRef _ => fun w => (Unmodelled, w)
  end.

(** *** copy.deepcopy

    As in the library: scalars are returned as they are; for a dict or a
    list the memo is consulted first, otherwise a new empty object is
    created and entered in the memo before its elements are copied in
    order, so that shared and cyclic structures are copied once.  The
    new object receives its elements when they are all copied: nothing in
    between reads it. *)

Definition obj_vals (o : Obj) : list Val :=
  match o with
  | ODict items => map snd items
  | OList elems => elems
  end.

Definition obj_with (o : Obj) (vs : list Val) : Obj :=
  match o with
  | ODict items => ODict (combine (map fst items) vs)
  | OList _ => OList vs
  end.

Definition CopySt : Type := gmap loc loc * gmap loc Obj.

Fixpoint copy_list (copy : Val -> CopySt -> option (Val * CopySt))
    (vs : list Val) (st : CopySt) : option (list Val * CopySt) :=
  match vs with
  | [] => Some ([], st)
  | v :: vs' =>
      match copy v st with
      | None => None
      | Some (v', st') =>
          match copy_list copy vs' st' with
          | None => None
          | Some (vs'', st'') => Some (v' :: vs'', st'')
          end
      end
  end.

(** [None] when [fuel], the nesting depth allowed, runs out or when a
    reference leads to no object. *)
Fixpoint deepcopy_val (fuel : nat) (v : Val) (st : CopySt)
  : option (Val * CopySt) :=
  match v with
  | VRef l =>
      match st.1 !! l with
      | Some l' => Some (VRef l', st)
      | None =>
          match fuel with
          | O => None
          | S fuel' =>
              match st.2 !! l with
              | None => None
              | Some o =>
                  let l' := fresh (dom st.2) in
                  let st1 := (<[l:=l']> st.1, <[l':=obj_with o []]> st.2) in
                  match copy_list (deepcopy_val fuel') (obj_vals o) st1 with
                  | None => None
                  | Some (vs', st2) =>
                      Some (VRef l', (st2.1, <[l':=obj_with o vs']> st2.2))
                  end
              end
          end
      end
  | _ => Some (v, st)
  end.

(** [deepcopy(v)], with an empty memo.  No nesting is deeper than the
    number of objects there are. *)
Definition deepcopy (v : Val) : Py Val :=
  fun w =>
    match deepcopy_val (S (size (heap w))) v (∅, heap w) with
    | Some (v', st) => (Returns v', set_heap st.2 w)
    | None => (NoObject, w)
    end.

(** [for x in l: body(x)] *)
Fixpoint for_each {A} (l : list A) (body : A -> Py unit) : Py unit :=
  match l with
  | [] => ret tt
  | x :: l' => body x ;;; for_each l' body
  end.

(** [d.items()], as a snapshot; also what [d.keys()] needs of [d]. *)
Definition items (d : Val) : Py (list (string * Val)) :=
  match d with
  | VRef l =>
      o <- load l ;;
      match o with
      | ODict its => ret its
      | OList _ => raise AttributeError
      end
  | _ => raise AttributeError
  end.

(** [d[k]] *)
Definition getitem (d : Val) (k : string) : Py Val :=
  match d with
  | VRef l =>
      o <- load l ;;
      match o with
      | ODict its =>
          match dict_get k its with
          | Some v => ret v
          | None => raise (KeyError k)
          end
      | OList _ => raise TypeError
      end
  | _ => raise TypeError
  end.

(** [d[k] = v] *)
Definition setitem (d : Val) (k : string) (v : Val) : Py unit :=
  match d with
  | VRef l =>
      o <- load l ;;
      match o with
      | ODict its => store l (ODict (dict_set k v its))
      | OList _ => raise TypeError
      end
  | _ => raise TypeError
  end.

(** ** jam/ir/document_store/base/store.py: Document *)

Module Document.

(** The attributes, in the order [__init__] assigns them. *)
Record t : Type := mk {
  text : Val;
  score : Val;
  probability : Val;
  question : Val;
  meta : Val;
  embedding : Val;
  id : string
}.

Definition quote : string := String "034"%char "".

Definition choose_msg : string :=
  "Choose either " ++ quote ++ "uuid3" ++ quote ++ " or "
    ++ quote ++ "uuid5" ++ quote ++ " or None".

(** [mmh3.hash128] and [uuid.uuid3]/[uuid5] take a [str]. *)
Definition as_str (v : Val) : Res string :=
  match v with
  | VStr s => inr s
  | _ => inl TypeError
  end.

Definition _get_id (self_text : Val) (id_hash_keys : Val) (uuid_type : Val)
  : Res string :=
  match uuid_type with
  | VNone =>
      match as_str self_text with
      | inr s => inr (format_02x (mmh3.hash128 s))
      | inl e => inl e
      end
  | VStr u =>
      if String.eqb u "uuid3" then
        match as_str self_text with
        | inr s => inr (uuid.str (uuid.uuid3 uuid.NAMESPACE_DNS s))
        | inl e => inl e
        end
      else if String.eqb u "uuid5" then
        match as_str self_text with
        | inr s => inr (uuid.str (uuid.uuid5 uuid.NAMESPACE_DNS s))
        | inl e => inl e
        end
      else inl (ValueError choose_msg)
  | _ => inl (ValueError choose_msg)
  end.

(** [self._get_id(id_hash_keys, uuid_type=uuid_type) if id is None else
    str(id)] *)
Definition id_or_derived (self_text id id_hash_keys uuid_type : Val)
  : Py string :=
  match id with
  | VNone => lift (_get_id self_text id_hash_keys uuid_type)
  | _ => py_str id
  end.

Definition __init__
    (text id score probability question meta embedding
     id_hash_keys uuid_type : Val) : Py t :=
  nonempty <- truthy meta ;;
  meta' <- (if nonempty : bool then ret meta
            else l <- alloc (ODict []) ;; ret (VRef l)) ;;
  id' <- id_or_derived text id id_hash_keys uuid_type ;;
  ret (mk text score probability question meta' embedding id').

(** [self.__dict__.items()] *)
Definition __dict__ (self : t) : list (string * Val) :=
  [ ("text", text self); ("score", score self);
    ("probability", probability self); ("question", question self);
    ("meta", meta self); ("embedding", embedding self);
    ("id", VStr (id self)) ].

(** [{v: k for k, v in field_map.items()}] *)
Definition invert (field_map : list (string * string))
  : list (string * string) :=
  fold_left (fun inv kv => dict_set kv.2 kv.1 inv) field_map [].

(** The new dict is returned to the caller, so it is an object of the heap;
    nothing else is allocated while it is filled. *)
Definition to_dict (self : t) (field_map : list (string * string)) : Py Val :=
  let inv_field_map := invert field_map in
  let _doc :=
    fold_left
      (fun d kv =>
         let k := match dict_get kv.1 inv_field_map with
                  | Some k' => k'
                  | None => kv.1
                  end in
         dict_set k kv.2 d)
      (__dict__ self) [] in
  l <- alloc (ODict _doc) ;;
  ret (VRef l).

Definition init_args : list string :=
  ["text"; "id"; "score"; "probability"; "question"; "meta"; "embedding"].

Definition parameters : list string :=
  init_args ++ ["id_hash_keys"; "uuid_type"].

Definition arg (kwargs : list (string * Val)) (k : string) : Val :=
  match dict_get k kwargs with
  | Some v => v
  | None => VNone
  end.

(** Calling [cls] with the entries of a dict as keyword arguments: an
    unexpected keyword or a missing [text] is a [TypeError]. *)
Definition cls (kwargs : list (string * Val)) : Py t :=
  if forallb (fun kv => str_in kv.1 parameters) kwargs then
    match dict_get "text" kwargs with
    | None => raise TypeError
    | Some text =>
        __init__ text (arg kwargs "id") (arg kwargs "score")
          (arg kwargs "probability") (arg kwargs "question")
          (arg kwargs "meta") (arg kwargs "embedding")
          (arg kwargs "id_hash_keys") (arg kwargs "uuid_type")
    end
  else raise TypeError.

(** The body of the first loop of [from_dict]. *)
Definition fold_into_meta (_doc : Val) (field_map : list (string * string))
    (kv : string * Val) : Py unit :=
  if negb (str_in kv.1 init_args) && negb (dict_has kv.1 field_map) then
    m <- getitem _doc "meta" ;;
    setitem m kv.1 kv.2
  else ret tt.

(** The body of the second loop of [from_dict]; [_new_doc] is local. *)
Definition keep_known (field_map : list (string * string))
    (_new_doc : list (string * Val)) (kv : string * Val)
  : list (string * Val) :=
  if str_in kv.1 init_args then dict_set kv.1 kv.2 _new_doc
  else
    match dict_get kv.1 field_map with
    | Some k => dict_set k kv.2 _new_doc
    | None => _new_doc
    end.

(** The first loop stores under keys [_doc] already has, so the keys it
    iterates over do not change, and where [_doc["meta"]] is [_doc] itself it
    stores the value already there: iterating over a snapshot of the items
    is iterating over the live dict. *)
Definition from_dict (dict : Val) (field_map : list (string * string))
    (uuid_type : Val) : Py t :=
  _doc <- deepcopy dict ;;
  keys <- items _doc ;;
  (if dict_has "meta" keys then ret tt
   else m <- alloc (ODict []) ;; setitem _doc "meta" (VRef m)) ;;;
  its <- items _doc ;;
  for_each its (fold_into_meta _doc field_map) ;;;
  its <- items _doc ;;
  let _new_doc := fold_left (keep_known field_map) its [] in
  given <- truthy uuid_type ;;
  let _new_doc :=
    if given : bool then dict_set "uuid_type" uuid_type _new_doc
    else _new_doc in
  cls _new_doc.

End Document.

(** ** jam/ir/document_store/base/store.py: Label

    The fields have the types the constructor is annotated with. *)

Module Label.

(** An [int] as the annotations admit it: [bool] is a subclass of [int],
    so [True] and [False] are values of an [Optional[int]] field too. *)
Inductive py_int : Type :=
| Int (z : Z)
| Bool (b : bool).



(** The attributes, in the order [__init__] assigns them. *)
Record t : Type := mk {
  id : string;
  created_at : option string;
  updated_at : option string;
  question : string;
  answer : string;
  is_correct_answer : bool;
  is_correct_document : bool;
  origin : string;
  document_id : option string;
  offset_start_in_doc : option py_int;
  no_answer : option bool;
  model_id : option py_int
}.

(** [uuid4()] draws 16 bytes from the entropy source of the process. *)
Definition uuid4 : Py N :=
  fun w =>
    (Returns (uuid.uuid4 (proc w) (drawn w)),
     {| proc := proc w; drawn := drawn w + 16; heap := heap w |}).

(** Truth value of an [Optional[str]]. *)
Definition given (id : option string) : bool :=
  match id with
  | Some s => negb (String.eqb s "")
  | None => false
  end.

Definition __init__
    (question answer : string)
    (is_correct_answer is_correct_document : bool)
    (origin : string)
    (id document_id : option string)
    (offset_start_in_doc : option py_int)
    (no_answer : option bool)
    (model_id : option py_int)
    (created_at updated_at : option string) : Py t :=
  id' <- (if given id then ret (default "" id)
          else u <- uuid4 ;; ret (uuid.str u)) ;;
  ret (mk id' created_at updated_at question answer is_correct_answer
         is_correct_document origin document_id offset_start_in_doc
         no_answer model_id).


(** [a == b] on the optional fields. *)
Definition eq_opt {A} (eqb : A -> A -> bool) (a b : option A) : bool :=
  match a, b with
  | Some x, Some y => eqb x y
  | None, None => true
  | _, _ => false
  end.







End Label.

(** ** jam/ir/document_store/base/store.py: BaseDocStore *)

(** The base class as an interface: what the code below asks of [self].
    [index] is the attribute, [get_documents_by_id] the abstract method, and
    [_drop_duplicate_documents] a method the base class calls on [self] and
    leaves to others to define. *)
Class BaseDocStore (Store : Type) : Type := {
  index : Store -> option string;
  get_documents_by_id :
    Store -> list string -> option string -> list Document.t;
  _drop_duplicate_documents : Store -> list Document.t -> list Document.t
}.

(** [a or b] on [Optional[str]]. *)
Definition or_else (a b : option string) : option string :=
  if Label.given a then a else b.

(** Modelled from the spec: a definition of [_drop_duplicate_documents],
    which [_handle_duplicate_documents] calls on [self], is nowhere in the
    sources at hand.  Section 4.3, step 1: "Deduplicate within the incoming
    batch by id, keeping the first occurrence encountered (stable,
    input-order preserving)".  [seen] are the ids met so far. *)
Fixpoint drop_seen (seen : list string) (documents : list Document.t)
  : list Document.t :=
  match documents with
  | [] => []
  | document :: rest =>
      if str_in (Document.id document) seen then drop_seen seen rest
      else document :: drop_seen (seen ++ [Document.id document]) rest
  end.

(** Modelled from the spec: see [drop_seen]. *)
Definition drop_duplicate_documents (documents : list Document.t)
  : list Document.t :=
  drop_seen [] documents.

(** In [raise DuplicateDocumentError(...)] the name [DuplicateDocumentError]
    is evaluated first, before the message of the call is built.  The module
    binds no such name (it defines no class of that name and imports none),
    and it is no builtin: evaluating it raises [NameError]. *)
Definition _handle_duplicate_documents {Store : Type} `{BaseDocStore Store}
    (self : Store)
    (documents : list Document.t) (index_arg : option string)
    (duplicate_documents : option string) : Res (list Document.t) :=
  let index := or_else index_arg (index self) in
  if Label.eq_opt String.eqb duplicate_documents (Some "skip")
     || Label.eq_opt String.eqb duplicate_documents (Some "fail")
  then
    let documents := _drop_duplicate_documents self documents in
    let documents_found :=
      get_documents_by_id self (map Document.id documents) index in
    let ids_exist_in_db := map Document.id documents_found in
    if (0 <? length ids_exist_in_db)%nat
       && Label.eq_opt String.eqb duplicate_documents (Some "fail")
    then inl (NameError "DuplicateDocumentError")
    else
      inr (List.filter (fun doc => negb (str_in (Document.id doc) ids_exist_in_db))
             documents)
  else inr documents.

(** Modelled from the spec: [write_documents] is abstract in the base
    class and no backend is among the sources at hand.  This is the
    in-memory backend of section 4.3: the documents of all indices in the
    order they were stored; a lookup returns "only the subset of requested
    ids that exist"; a write reconciles the batch with
    [_handle_duplicate_documents] (steps 1 to 5), hands what survives to the
    backend "in chunks no larger than batchSize" (step 6), and the backend
    replaces "existing records with matching ids". *)
Module MemoryStore.

Record t : Type := mk {
  default_index : option string;
  stored : list (option string * Document.t)
}.

Definition in_index (ix : option string) (e : option string * Document.t)
  : bool :=
  Label.eq_opt String.eqb e.1 ix.

Definition lookup (self : t) (ids : list string) (index_arg : option string)
  : list Document.t :=
  let ix := or_else index_arg (default_index self) in
  map snd
    (List.filter
       (fun e => in_index ix e && str_in (Document.id e.2) ids)
       (stored self)).

#[global] Instance store : BaseDocStore t :=
  {| index := default_index;
     get_documents_by_id := lookup;
     _drop_duplicate_documents := fun _ => drop_duplicate_documents |}.

Fixpoint upsert (ix : option string) (d : Document.t)
    (l : list (option string * Document.t))
  : list (option string * Document.t) :=
  match l with
  | [] => [(ix, d)]
  | e :: l' =>
      if in_index ix e && String.eqb (Document.id e.2) (Document.id d)
      then (ix, d) :: l'
      else e :: upsert ix d l'
  end.

Definition submit (ix : option string) (self : t) (chunk : list Document.t)
  : t :=
  mk (default_index self)
     (fold_left (fun l d => upsert ix d l) chunk (stored self)).

Definition write_documents (self : t) (documents : list Document.t)
    (index_arg : option string) (batch_size : positive)
    (duplicate_documents : option string) : Res unit * t :=
  match _handle_duplicate_documents self documents index_arg
          duplicate_documents with
  | inl e => (inl e, self)
  | inr documents =>
      let ix := or_else index_arg (default_index self) in
      (inr tt,
       fold_left (submit ix)
         (chunks (length documents) (Pos.to_nat batch_size) documents) self)
  end.

End MemoryStore.

(** ** jam/tdk/rise.py: the authorization check of [fn_set_name] *)

Module rise.


(** [r.text == user_id.text], where [user_id.text] is the [str] the
    document was made of: a value equals it only if it is that string. *)
Definition text_eq (v : Val) (name : string) : bool :=
  match v with
  | VStr s => String.eqb s name
  | _ => false
  end.

(** The loop

      while not status and pointer.has_next():
          r = pointer.next()
          if r.text == user_id.text:
              status = True

    The elements the iterator hands out are documents, or [None], which is
    what it holds before its first lookahead and which has no [text].
    [fuel] bounds the number of times the condition is tested. *)
Fixpoint scan (fuel : nat) (name : string) (status : bool)
    (pointer : @NIterator.t (option Document.t))
  : option (Res bool * @NIterator.t (option Document.t)) :=
  match fuel with
  | O => None
  | S fuel' =>
      if negb status then
        let (more, pointer) := NIterator.has_next pointer in
        if more then
          match NIterator.next pointer with
          | (inr (Some r), pointer) =>
              scan fuel' name
                (if text_eq (Document.text r) name then true else status)
                pointer
          | (inr None, pointer) => Some (inl AttributeError, pointer)
          | (inl e, pointer) => Some (inl e, pointer)
          end
        else Some (inr status, pointer)
      else Some (inr status, pointer)
  end.

(** The test of the loop body on a document of the response. *)
Definition is_user (name : string) (r : Document.t) : bool :=
  text_eq (Document.text r) name.

(** [status] after the loop, for [pointer = struct.NIterator(iter(response))]
    and [status = False]. *)
Definition authorized (fuel : nat) (name : string)
    (response : list Document.t)
  : option (Res bool * @NIterator.t (option Document.t)) :=
  scan fuel name false (NIterator.__init__ None (map Some response)).

End rise.

(** ** Vocabulary of the statements *)







(** The first document of a batch with a given id. *)
Definition first_with_id (documents : list Document.t) (i : string)
  : option Document.t :=
  List.find (fun d => String.eqb (Document.id d) i) documents.

(** The ids [_handle_duplicate_documents] finds in the index. *)
Definition ids_found {Store : Type} `{BaseDocStore Store} (self : Store)
    (documents : list Document.t) (index_arg : option string) : list string :=
  map Document.id
    (get_documents_by_id self
       (map Document.id (_drop_duplicate_documents self documents))
       (or_else index_arg (index self))).

(** A value refers to an object of the heap, if to any. *)
Definition val_in (h : gmap loc Obj) (v : Val) : Prop :=
  match v with
  | VRef l => l ∈ dom h
  | _ => True
  end.

(** No object refers to an object that is not there. *)
Definition closed (h : gmap loc Obj) : Prop :=
  forall l o, h !! l = Some o -> Forall (val_in h) (obj_vals o).

(** A value with its references taken through the memo of a copy. *)
Definition rename_val (m : gmap loc loc) (v : Val) : Val :=
  match v with
  | VRef l =>
      match m !! l with
      | Some l' => VRef l'
      | None => v
      end
  | _ => v
  end.

Definition rename_obj (m : gmap loc loc) (o : Obj) : Obj :=
  obj_with o (map (rename_val m) (obj_vals o)).

Definition val_mapped (m : gmap loc loc) (v : Val) : Prop :=
  match v with
  | VRef l => is_Some (m !! l)
  | _ => True
  end.

(** The object at [x'] is the finished copy of the object [h0] has at
    [x]. *)
Definition copied (h0 : gmap loc Obj) (m : gmap loc loc) (h : gmap loc Obj)
    (x x' : loc) : Prop :=
  exists o,
    h0 !! x = Some o
    /\ h !! x' = Some (rename_obj m o)
    /\ Forall (val_mapped m) (obj_vals o).

(** The state of a copy of objects of [h0]: every entry of the memo leads
    from an object of [h0] to a new object, which is its finished copy
    unless the copy is in progress ([P]). *)
Definition sim (h0 : gmap loc Obj) (P : gset loc) (st : CopySt) : Prop :=
  (h0 ⊆ st.2)
  /\ (dom st.1 ⊆ dom h0)
  /\ forall x x',
       st.1 !! x = Some x' ->
       (x' ∉ dom h0) /\ (x' ∈ dom st.2)
       /\ (x ∈ P \/ copied h0 st.1 st.2 x x').

(** From one state of a copy to a later one: nothing is forgotten, and
    what the memo gains are objects that were not there. *)
Definition step_ok (st st' : CopySt) : Prop :=
  (st.1 ⊆ st'.1)
  /\ (st.2 ⊆ st'.2)
  /\ forall x x',
       st'.1 !! x = Some x' -> st.1 !! x = Some x' \/ (x' ∉ dom st.2).

(** Two values are related when they are the same scalar or references
    to related objects. *)
Definition related (R : loc -> loc -> Prop) (v v' : Val) : Prop :=
  match v, v' with
  | VRef l, VRef l' => R l l'
  | VRef _, _ | _, VRef _ => False
  | _, _ => v = v'
  end.

Definition obj_related (R : loc -> loc -> Prop) (o o' : Obj) : Prop :=
  match o, o' with
  | ODict a, ODict b =>
      Forall2 (fun x y => x.1 = y.1 /\ related R x.2 y.2) a b
  | OList a, OList b => Forall2 (related R) a b
  | _, _ => False
  end.

(** Related objects have the same keys in the same order (the same
    length, for lists) and related elements. *)
Definition bisimulation (h : gmap loc Obj) (R : loc -> loc -> Prop) : Prop :=
  forall l l',
    R l l' ->
    exists o o', h !! l = Some o /\ h !! l' = Some o' /\ obj_related R o o'.

(** Field-by-field equality of what two values denote in a heap: they
    are the same scalar, or objects that look the same however far one
    follows their references (shared or cyclic structure included). *)
Definition same_value (h : gmap loc Obj) (v v' : Val) : Prop :=
  exists R, bisimulation h R /\ related R v v'.

(** The values of the heap as trees, for values that are finite. *)
Inductive Tree : Type :=
| TNone
| TBool (b : bool)
| TInt (z : Z)
| TFloat (bits : N)
| TStr (s : string)
| TDict (items : list (string * Tree))
| TList (elems : list Tree).

Fixpoint all_some {A} (l : list (option A)) : option (list A) :=
  match l with
  | [] => Some []
  | None :: _ => None
  | Some x :: l' =>
      match all_some l' with
      | Some xs => Some (x :: xs)
      | None => None
      end
  end.

(** The tree a value denotes, when it has one of depth [fuel] at most. *)
Fixpoint denote (fuel : nat) (h : gmap loc Obj) (v : Val) : option Tree :=
  match v with
  | VNone => Some TNone
  | VBool b => Some (TBool b)
  | VInt z => Some (TInt z)
  | VFloat bits => Some (TFloat bits)
  | VStr s => Some (TStr s)
  | VRef l =>
      match fuel with
      | O => None
      | S fuel' =>
          match h !! l with
          | Some (ODict its) =>
              match all_some (map (denote fuel' h) (map snd its)) with
              | Some ts => Some (TDict (combine (map fst its) ts))
              | None => None
              end
          | Some (OList xs) =>
              match all_some (map (denote fuel' h) xs) with
              | Some ts => Some (TList ts)
              | None => None
              end
          | None => None
          end
      end
  end.

(** [bool(v)] in a heap, without the world. *)
Definition truth (h : gmap loc Obj) (v : Val) : option bool :=
  match v with
  | VNone => Some false
  | VBool b => Some b
  | VInt z => Some (negb (z =? 0)%Z)
  | VFloat bits => Some (negb ((bits =? 0)%N || (bits =? 2 ^ 63)%N))
  | VStr s => Some (negb (String.eqb s ""))
  | VRef l =>
      match h !! l with
      | Some (ODict []) | Some (OList []) => Some false
      | Some _ => Some true
      | None => None
      end
  end.

(** A document as the constructor leaves it, in a heap: its values refer
    to objects that are there, and its [meta] is what [meta or {}] gives, a
    value that counts as true or an empty dict. *)
Definition doc_in (h : gmap loc Obj) (D : Document.t) : Prop :=
  Forall (val_in h) (map snd (Document.__dict__ D))
  /\ (truth h (Document.meta D) = Some true
      \/ exists l, Document.meta D = VRef l /\ h !! l = Some (ODict [])).

(** The key [to_dict] emits the attribute [a] under. *)
Definition emitted_key (field_map : list (string * string)) (a : string)
  : string :=
  match dict_get a (Document.invert field_map) with
  | Some k => k
  | None => a
  end.


(** A value that is no reference to an object. *)
Definition scalar (v : Val) : Prop := forall l, v <> VRef l.


(** ** Concrete inputs the theorems are tried on *)

Definition example_process : Process :=
  {| str_hash := fun s => Z.of_nat (String.length s);
     urandom := fun _ => Byte.x2a |}.

(** A process whose entropy source delivers sixteen bytes 0x00 and then
    bytes 0xff. *)
Definition stepping_process : Process :=
  {| str_hash := fun s => Z.of_nat (String.length s);
     urandom := fun i => if (i <? 16)%nat then Byte.x00 else Byte.xff |}.


(** A heap with the dict [{"a": 1}]. *)
Definition example_world : World :=
  {| proc := example_process;
     drawn := 0;
     heap := <[1%positive:=ODict [("a", VInt 1)]]> ∅ |}.


(** The document [Document(text, id=i)], but for its [meta]. *)
Definition example_doc (text i : string) : Document.t :=
  Document.mk (VStr text) VNone VNone VNone VNone VNone i.

(** A store whose index [document] holds one document, with the id [a]. *)
Definition example_store : MemoryStore.t :=
  MemoryStore.mk (Some "document")
    [(Some "document", example_doc "old" "a")].

(** A heap with the mapping
    [{"text": "t", "meta": {}, "m": {"a": 1}, "extra": 5}] at 3. *)
Definition example_mapping_world : World :=
  {| proc := example_process;
     drawn := 0;
     heap :=
       <[1%positive:=ODict []]>
         (<[2%positive:=ODict [("a", VInt 1)]]>
            (<[3%positive:=
                 ODict [("text", VStr "t"); ("meta", VRef 1%positive);
                        ("m", VRef 2%positive); ("extra", VInt 5)]]> ∅)) |}.

(** * Verification *)

(** ** The lookahead iterator *)

Module NIteratorFacts.
Import NIterator.
Section WithElements.

Context {T : Type} (none : T).

Implicit Types (self : t (T:=T)) (cs : list call).

Lemma consistent_init (S : list T) : consistent (__init__ none S).
Proof. unfold consistent; simpl; discriminate. Qed.

Lemma consistent_next self : consistent self -> consistent (snd (next self)).
Proof.
  unfold consistent, next; destruct self as [l [[|]|] x]; simpl;
    try discriminate.
  - intros H; rewrite (H eq_refl); simpl; auto.
  - destruct l; simpl; auto; discriminate.
Qed.

Lemma consistent_has_next self :
  consistent self -> consistent (snd (has_next self)).
Proof.
  unfold consistent, has_next; destruct self as [l [[|]|] x]; simpl; auto.
  destruct l; simpl; auto; discriminate.
Qed.

Lemma consistent_run cs : forall self,
  consistent self -> consistent (snd (run cs self)).
Proof.
  induction cs as [|[|] cs IH]; intros self H; simpl; auto.
  - pose proof (consistent_next self H) as H'.
    destruct (next self) as [r s1]; simpl in H'.
    specialize (IH s1 H'). destruct (run cs s1); auto.
  - pose proof (consistent_has_next self H) as H'.
    destruct (has_next self) as [b s1]; simpl in H'.
    specialize (IH s1 H'). destruct (run cs s1); auto.
Qed.

Lemma pending_has_next self :
  consistent self -> pending (snd (has_next self)) = pending self.
Proof.
  unfold consistent, has_next, pending; destruct self as [l [[|]|] x];
    simpl; auto.
  destruct l; simpl; auto.
Qed.

Lemma next_pending self :
  consistent self ->
  (fst (next self), pending (snd (next self))) = py_next (pending self).
Proof.
  unfold consistent, next, pending; destruct self as [l [[|]|] x];
    simpl; auto.
  - intros H; rewrite (H eq_refl); reflexivity.
  - destruct l; reflexivity.
Qed.

Lemma returned_run cs : forall self,
  consistent self ->
  returned (fst (run cs self)) = iterate (count_next cs) (pending self).
Proof.
  induction cs as [|[|] cs IH]; intros self H; simpl; auto.
  - pose proof (next_pending self H) as Hn.
    pose proof (consistent_next self H) as Hc.
    destruct (next self) as [r s1]; simpl in *.
    specialize (IH s1 Hc). destruct (run cs s1) as [evs s2]; simpl in *.
    destruct (py_next (pending self)) as [r' l']; inversion Hn; subst.
    now rewrite IH.
  - pose proof (pending_has_next self H) as Hp.
    pose proof (consistent_has_next self H) as Hc.
    destruct (has_next self) as [b s1]; simpl in *.
    specialize (IH s1 Hc). destruct (run cs s1) as [evs s2]; simpl in *.
    now rewrite IH, Hp.
Qed.

Lemma has_next_twice self :
  has_next (snd (has_next self)) = has_next self.
Proof.
  unfold has_next; destruct self as [l [[|]|] x]; simpl; auto.
  destruct l; reflexivity.
Qed.

Lemma peek_n_repeat n : forall self,
  peek_n (S n) self =
  (repeat (fst (has_next self)) (S n), snd (has_next self)).
Proof.
  induction n as [|n IH]; intros self.
  - simpl. destruct (has_next self); reflexivity.
  - change (peek_n (S (S n)) self)
      with (let (b, self') := has_next self in
            let (bs, self'') := peek_n (S n) self' in (b :: bs, self'')).
    pose proof (has_next_twice self) as Ht.
    destruct (has_next self) as [b s1] eqn:E; simpl in Ht.
    rewrite IH, Ht. reflexivity.
Qed.

Lemma exhausted_stays self :
  consistent self -> fst (has_next self) = false ->
  forall cs, fst (has_next (snd (run cs self))) = false.
Proof.
  intros Hc Hf cs; revert self Hc Hf.
  induction cs as [|[|] cs IH]; intros self Hc Hf; simpl; auto.
  - pose proof (consistent_next self Hc) as Hc'.
    assert (fst (has_next (snd (next self))) = false) as Hf'.
    { revert Hc Hf. unfold consistent, has_next, next.
      destruct self as [l [[|]|] x]; simpl; try discriminate.
      - intros H _. rewrite (H eq_refl). reflexivity.
      - destruct l; simpl; auto; discriminate. }
    destruct (next self) as [r s1]; simpl in *.
    specialize (IH s1 Hc' Hf'). destruct (run cs s1); auto.
  - pose proof (consistent_has_next self Hc) as Hc'.
    assert (fst (has_next (snd (has_next self))) = false) as Hf'.
    { now rewrite has_next_twice. }
    destruct (has_next self) as [b s1]; simpl in *.
    specialize (IH s1 Hc' Hf'). destruct (run cs s1); auto.
Qed.

Lemma pending_init (S : list T) : pending (__init__ none S) = S.
Proof. reflexivity. Qed.

Lemma has_next_pending self :
  consistent self ->
  fst (has_next self) = match pending self with [] => false | _ => true end.
Proof.
  unfold consistent, has_next, pending; destruct self as [l [[|]|] x];
    simpl; auto.
  - intros H; rewrite (H eq_refl); reflexivity.
  - destruct l; reflexivity.
Qed.

Lemma pending_run cs : forall self,
  consistent self ->
  pending (snd (run cs self)) = skipn (count_next cs) (pending self).
Proof.
  induction cs as [|[|] cs IH]; intros self H; simpl run; simpl count_next.
  - reflexivity.
  - pose proof (next_pending self H) as Hn.
    pose proof (consistent_next self H) as Hc.
    destruct (next self) as [r s1]; simpl in Hn, Hc.
    specialize (IH s1 Hc). destruct (run cs s1) as [evs s2]; simpl in *.
    rewrite IH. destruct (pending self) as [|x l]; simpl in Hn.
    + inversion Hn as [[Hr Hp]]. rewrite Hp. now rewrite skipn_nil.
    + inversion Hn as [[Hr Hp]]. now rewrite Hp.
  - pose proof (pending_has_next self H) as Hp.
    pose proof (consistent_has_next self H) as Hc.
    destruct (has_next self) as [b s1]; simpl in Hp, Hc.
    specialize (IH s1 Hc). destruct (run cs s1) as [evs s2]; simpl in *.
    now rewrite IH, Hp.
Qed.

(** C6. For a finite sequence [S] wrapped in the iterator, and after any
    interleaving [cs] of [next()] and [has_next()] calls: (1) one more or
    many more [has_next()] calls in a row all give the answer of the first
    and leave the state the first one left, so the underlying sequence is
    not advanced; (2) the [next()] calls of [cs] return what direct
    iteration of [S] returns, in the same order, the [StopIteration]s at the
    end included; (3) [has_next()] is true exactly while fewer [next()]
    calls were made than [S] has elements; (4) once [has_next()] has
    answered false it answers false after any further calls. *)
Theorem lookahead_iterator_contract (S : list T) :
  (forall cs n,
     let self := snd (run cs (__init__ none S)) in
     peek_n (Datatypes.S n) self =
       (repeat (fst (has_next self)) (Datatypes.S n), snd (has_next self))
     /\ it (snd (peek_n (Datatypes.S n) self)) = it (snd (has_next self)))
  /\ (forall cs,
        returned (fst (run cs (__init__ none S))) = iterate (count_next cs) S)
  /\ (forall cs,
        fst (has_next (snd (run cs (__init__ none S)))) =
        if decide (count_next cs < length S) then true else false)
  /\ (forall cs cs',
        fst (has_next (snd (run cs (__init__ none S)))) = false ->
        fst (has_next (snd (run cs' (snd (run cs (__init__ none S)))))) = false).
Proof.
  pose proof (consistent_init S) as Hi.
  repeat split.
  - apply peek_n_repeat.
  - now rewrite peek_n_repeat.
  - intros cs. now rewrite returned_run, pending_init.
  - intros cs. rewrite has_next_pending by now apply consistent_run.
    rewrite pending_run, pending_init by assumption.
    case_decide as Hlt.
    + destruct (skipn (count_next cs) S) eqn:E; [|reflexivity].
      apply (f_equal (@length T)) in E. rewrite length_skipn in E.
      simpl in E. lia.
    + rewrite skipn_all2 by lia. reflexivity.
  - intros cs cs' Hf. apply exhausted_stays; [|assumption].
    now apply consistent_run.
Qed.

End WithElements.
End NIteratorFacts.





(** ** Hexadecimal formatting *)

Lemma hex_val_digit d : (d < 16)%N -> hex_val (hex_digit d) = d.
Proof.
  intros H. unfold hex_val, hex_digit.
  assert (d = 0 \/ d = 1 \/ d = 2 \/ d = 3 \/ d = 4 \/ d = 5 \/ d = 6 \/ d = 7
          \/ d = 8 \/ d = 9 \/ d = 10 \/ d = 11 \/ d = 12 \/ d = 13 \/ d = 14
          \/ d = 15)%N as Hd by lia.
  repeat (destruct Hd as [->|Hd]; [reflexivity|]). now subst.
Qed.

Lemma parse_hex_digits fuel : forall n acc,
  (n < 2 ^ N.of_nat fuel)%N ->
  parse_hex (hex_digits fuel n acc) 0 = parse_hex acc n.
Proof.
  induction fuel as [|fuel IH]; intros n acc Hn.
  - simpl in *. now replace n with 0%N by lia.
  - simpl hex_digits. destruct (N.eqb_spec n 0) as [->|Hne]; [reflexivity|].
    rewrite IH.
    + simpl. rewrite hex_val_digit by (apply N.mod_lt; lia).
      f_equal. rewrite (N.div_mod' n 16) at 3. lia.
    + rewrite Nat2N.inj_succ, N.pow_succ_r' in Hn.
      apply N.Div0.div_lt_upper_bound. lia.
Qed.

Lemma all_hex_digits fuel : forall n acc,
  all_hex acc = true -> all_hex (hex_digits fuel n acc) = true.
Proof.
  induction fuel as [|fuel IH]; intros n acc Hacc; simpl; auto.
  destruct (n =? 0)%N; auto. apply IH. simpl.
  rewrite hex_val_digit by (apply N.mod_lt; lia).
  rewrite Hacc. apply andb_true_intro; split; auto.
  apply N.ltb_lt, N.mod_lt; lia.
Qed.

Lemma length_hex_digits_le fuel : forall k n acc,
  (n < 16 ^ N.of_nat k)%N ->
  String.length (hex_digits fuel n acc) <= k + String.length acc.
Proof.
  induction fuel as [|fuel IH]; intros k n acc Hn; simpl; [lia|].
  destruct (N.eqb_spec n 0) as [->|Hne]; [lia|].
  destruct k as [|k]; [simpl in Hn; lia|].
  specialize (IH k (n / 16)%N (String (hex_digit (n mod 16)%N) acc)).
  simpl in IH. etransitivity; [apply IH|lia].
  rewrite Nat2N.inj_succ, N.pow_succ_r' in Hn.
  apply N.Div0.div_lt_upper_bound. lia.
Qed.

Lemma length_hex_digits_ge fuel : forall n acc,
  String.length acc <= String.length (hex_digits fuel n acc).
Proof.
  induction fuel as [|fuel IH]; intros n acc; simpl; [lia|].
  destruct (n =? 0)%N; [lia|].
  etransitivity; [|apply IH]. simpl. lia.
Qed.

Lemma parse_format_x n : parse_hex (format_x n) 0 = n.
Proof.
  unfold format_x. destruct (N.eqb_spec n 0) as [->|Hne]; [reflexivity|].
  rewrite parse_hex_digits; [reflexivity|].
  rewrite N2Nat.id. apply N.size_gt.
Qed.

Lemma all_hex_format_x n : all_hex (format_x n) = true.
Proof.
  unfold format_x. destruct (n =? 0)%N; [reflexivity|].
  now apply all_hex_digits.
Qed.

Lemma length_format_x n k :
  0 < k -> (n < 16 ^ N.of_nat k)%N ->
  1 <= String.length (format_x n) <= k.
Proof.
  intros Hk Hn. unfold format_x.
  destruct (N.eqb_spec n 0) as [->|Hne]; [simpl; lia|]. split.
  - destruct (N.to_nat (N.size n)) as [|f] eqn:E.
    + destruct n; [lia|]. simpl in E. lia.
    + simpl. destruct (N.eqb_spec n 0); [lia|].
      etransitivity; [|apply length_hex_digits_ge]. simpl. lia.
  - pose proof (length_hex_digits_le (N.to_nat (N.size n)) k n "" Hn).
    simpl in *. lia.
Qed.

Lemma length_append (s1 s2 : string) :
  String.length (s1 ++ s2) = String.length s1 + String.length s2.
Proof. induction s1; simpl; auto. Qed.

Lemma length_zeros k : String.length (zeros k) = k.
Proof. induction k; simpl; auto. Qed.

Lemma length_zero_pad w s :
  String.length (zero_pad w s) = Nat.max w (String.length s).
Proof. unfold zero_pad. rewrite length_append, length_zeros. lia. Qed.

Lemma parse_zero_pad w s : parse_hex (zero_pad w s) 0 = parse_hex s 0.
Proof.
  unfold zero_pad. induction (w - String.length s) as [|k IH]; simpl; auto.
Qed.

Lemma all_hex_zero_pad w s : all_hex (zero_pad w s) = all_hex s.
Proof.
  unfold zero_pad. induction (w - String.length s) as [|k IH]; simpl; auto.
Qed.

(** ** Document identity *)

Module DocumentIdFacts.
Import Document.

Lemma w64_lt x : (mmh3.w64 x < 2 ^ 64)%N.
Proof.
  unfold mmh3.w64. change 18446744073709551615%N with (N.ones 64).
  rewrite N.land_ones. apply N.mod_lt. discriminate.
Qed.

Lemma hash128_lt key : (mmh3.hash128 key < 2 ^ 128)%N.
Proof.
  unfold mmh3.hash128, mmh3.murmurhash3_x64_128.
  destruct (mmh3.body _ _ _ _) as [[h1 h2] tail]. cbv zeta.
  match goal with
  | |- (mmh3.w64 ?a + _ * mmh3.w64 ?b < _)%N =>
      pose proof (w64_lt a); pose proof (w64_lt b)
  end.
  change (2 ^ 128)%N with (18446744073709551616 * 2 ^ 64)%N.
  change (2 ^ 64)%N with 18446744073709551616%N in *. lia.
Qed.

(** Whatever [__init__] returns when no id is supplied carries the id
    [_get_id] derives. *)
Lemma init_derives text score probability question meta embedding keys ut
    w d w' :
  __init__ text VNone score probability question meta embedding keys ut w
    = (Returns d, w') ->
  _get_id text keys ut = inr (id d).
Proof.
  unfold __init__, bind, id_or_derived.
  destruct (truthy meta w) as [[b| | |] w1]; try discriminate.
  destruct (_ w1) as [[meta'| | |] w2]; try discriminate.
  destruct (_get_id text keys ut) as [e|i]; simpl; [discriminate|].
  unfold ret. intros [= <- _]. reflexivity.
Qed.

(** With no [meta] the constructor returns. *)
Lemma document_init_returns text score probability question embedding keys ut w i :
  _get_id text keys ut = inr i ->
  exists l,
    __init__ text VNone score probability question VNone embedding keys ut w
    = (Returns (mk text score probability question (VRef l) embedding i),
       set_heap (<[l:=ODict []]> (heap w)) w).
Proof.
  intros Hi. exists (fresh (dom (heap w))).
  unfold __init__, bind, id_or_derived, truthy, ret, alloc. rewrite Hi.
  reflexivity.
Qed.

Definition schemes : list Val := [VNone; VStr "uuid3"; VStr "uuid5"].

(** The id each scheme derives from a text. *)
Definition derived_id (T : string) (ut : Val) : string :=
  match ut with
  | VNone => format_02x (mmh3.hash128 T)
  | VStr "uuid3" => uuid.str (uuid.uuid3 uuid.NAMESPACE_DNS T)
  | _ => uuid.str (uuid.uuid5 uuid.NAMESPACE_DNS T)
  end.

(** C1. For every text [T] and each of the three hashing schemes: in any
    two worlds (two runs, two processes with their own hash seed and
    entropy) and with any other constructor arguments, two [Document]s
    built from [T] with no explicit id carry the same id, which is
    [derived_id T] of the scheme, a function of the text alone; and with no
    [meta] given the constructor does return such a document. *)
Theorem document_id_deterministic (T : string) (ut : Val) :
  In ut schemes ->
  (forall keys, _get_id (VStr T) keys ut = inr (derived_id T ut))
  /\ (forall w1 w2 s1 s2 p1 p2 q1 q2 m1 m2 e1 e2 k1 k2 d1 d2 w1' w2',
        __init__ (VStr T) VNone s1 p1 q1 m1 e1 k1 ut w1 = (Returns d1, w1') ->
        __init__ (VStr T) VNone s2 p2 q2 m2 e2 k2 ut w2 = (Returns d2, w2') ->
        id d1 = id d2 /\ id d1 = derived_id T ut)
  /\ (forall w s p q e k, exists d w',
        __init__ (VStr T) VNone s p q VNone e k ut w = (Returns d, w')
        /\ id d = derived_id T ut).
Proof.
  intros Hut.
  assert (forall keys, _get_id (VStr T) keys ut = inr (derived_id T ut)) as Hg.
  { intros keys. destruct Hut as [<-|[<-|[<-|[]]]]; reflexivity. }
  split; [exact Hg|]. split.
  - intros w1 w2 s1 s2 p1 p2 q1 q2 m1 m2 e1 e2 k1 k2 d1 d2 w1' w2' H1 H2.
    apply init_derives in H1, H2. rewrite Hg in H1, H2.
    injection H1 as H1. injection H2 as H2. split; congruence.
  - intros w s p q e k.
    destruct (document_init_returns (VStr T) s p q e k ut w _ (Hg k)) as [l Hl].
    eexists _, _. split; [exact Hl|reflexivity].
Qed.

Lemma document_id_deterministic_witness :
  In (VStr "uuid5") schemes
  /\ forall keys,
       _get_id (VStr "hello") keys (VStr "uuid5")
       = inr (derived_id "hello" (VStr "uuid5")).
Proof.
  assert (In (VStr "uuid5") schemes) as H by (simpl; auto).
  split; [exact H|].
  exact (proj1 (document_id_deterministic "hello" (VStr "uuid5") H)).
Defined.

(** C7, as the code has it. Under the default scheme the id is the 128-bit
    MurmurHash3 of the text in lower-case hexadecimal, padded with zeros to
    two digits at least: it denotes the hash, and it has between 2 and 32
    characters (not one length for every text). *)
Theorem default_id_is_padded_hex (T : string) (keys : Val) :
  _get_id (VStr T) keys VNone = inr (format_02x (mmh3.hash128 T))
  /\ (mmh3.hash128 T < 2 ^ 128)%N
  /\ all_hex (format_02x (mmh3.hash128 T)) = true
  /\ parse_hex (format_02x (mmh3.hash128 T)) 0 = mmh3.hash128 T
  /\ 2 <= String.length (format_02x (mmh3.hash128 T)) <= 32.
Proof.
  pose proof (hash128_lt T) as Hlt.
  split; [reflexivity|]. split; [exact Hlt|].
  unfold format_02x. rewrite all_hex_zero_pad, parse_zero_pad, length_zero_pad.
  split; [apply all_hex_format_x|]. split; [apply parse_format_x|].
  assert (1 <= String.length (format_x (mmh3.hash128 T)) <= 32).
  { apply length_format_x; [lia|]. exact Hlt. }
  lia.
Qed.

(** C7 as stated fails: the empty text hashes to zero and gets the id
    ["00"], two characters, where ["foo"] gets thirty-two. *)
Lemma default_id_width_counterexample :
  _get_id (VStr "") VNone VNone = inr "00"
  /\ _get_id (VStr "foo") VNone VNone = inr "7eaf87e42bba7d87e271865701f54561"
  /\ String.length "00" <> String.length "7eaf87e42bba7d87e271865701f54561".
Proof. repeat split; [vm_compute; reflexivity..|discriminate]. Qed.

End DocumentIdFacts.

(** ** Labels *)

Module LabelFacts.
Import Label.


Lemma eq_opt_refl {A} (eqb : A -> A -> bool) (a : option A) :
  (forall x, eqb x x = true) -> eq_opt eqb a a = true.
Proof. intros H. destruct a; simpl; auto. Qed.










Lemma length_substring (s : string) : forall n m,
  n + m <= String.length s -> String.length (substring n m s) = m.
Proof.
  induction s as [|c s IH]; intros n m H; simpl in *.
  - destruct n, m; simpl; lia.
  - destruct n as [|n].
    + destruct m as [|m]; simpl; [reflexivity|]. rewrite IH; lia.
    + apply IH. lia.
Qed.

Lemma length_uuid_str u :
  String.length (format_032x u) = 32 -> String.length (uuid.str u) = 36.
Proof.
  intros H. unfold uuid.str.
  repeat rewrite ?length_append, ?length_substring by lia.
  reflexivity.
Qed.

Lemma lor_lt a b n :
  (a < 2 ^ n)%N -> (b < 2 ^ n)%N -> (N.lor a b < 2 ^ n)%N.
Proof.
  intros Ha Hb.
  destruct (N.eq_dec (N.lor a b) 0%N) as [->|Hne].
  { apply N.neq_0_lt_0, N.pow_nonzero. discriminate. }
  apply N.log2_lt_pow2; [lia|]. rewrite N.log2_lor.
  destruct (N.eq_dec a 0%N) as [->|Ha0];
    destruct (N.eq_dec b 0%N) as [->|Hb0];
    try (exfalso; apply Hne; reflexivity).
  - rewrite N.max_r by apply N.le_0_l. apply N.log2_lt_pow2; lia.
  - change (N.log2 0) with 0%N. rewrite N.max_l by apply N.le_0_l.
    apply N.log2_lt_pow2; lia.
  - apply N.max_lub_lt; apply N.log2_lt_pow2; lia.
Qed.

Lemma from_bytes_be_lt (bs : list N) : forall acc k,
  Forall (fun b => b < 256)%N bs ->
  (acc < 256 ^ k)%N ->
  (fold_left (fun a b => 256 * a + b) bs acc
   < 256 ^ (k + N.of_nat (length bs)))%N.
Proof.
  induction bs as [|b bs IH]; intros acc k Hbs Hacc; simpl length.
  - simpl. now rewrite N.add_0_r.
  - apply Forall_cons in Hbs as [Hb Hbs]. simpl fold_left.
    replace (k + N.of_nat (S (length bs)))%N
      with (N.succ k + N.of_nat (length bs))%N by lia.
    apply IH; [assumption|]. rewrite N.pow_succ_r'. lia.
Qed.

Lemma UUID_lt bs version :
  Forall (fun b => b < 256)%N bs -> length bs = 16 -> (version < 16)%N ->
  (uuid.UUID bs version < 2 ^ 128)%N.
Proof.
  intros Hbs Hlen Hv. unfold uuid.UUID, from_bytes_be.
  pose proof (from_bytes_be_lt bs 0 0 Hbs) as Hlt.
  rewrite Hlen in Hlt. specialize (Hlt ltac:(reflexivity)).
  change (256 ^ (0 + N.of_nat 16))%N with (2 ^ 128)%N in Hlt.
  cbv zeta. apply lor_lt.
  - eapply N.le_lt_trans; [apply N.ldiff_le_l|]. apply lor_lt.
    + eapply N.le_lt_trans; [apply N.ldiff_le_l|]. exact Hlt.
    + reflexivity.
  - rewrite N.shiftl_mul_pow2.
    apply N.lt_le_trans with (16 * 2 ^ 76)%N.
    + apply N.mul_lt_mono_pos_r; [reflexivity|exact Hv].
    + discriminate.
Qed.


(** *** The token of a label: the entropy it is made of *)















(** Two labels constructed one after the other without an id, where the
    entropy source delivers sixteen bytes 0x00 and then bytes 0xff: each has
    the token of its own sixteen bytes. *)
Lemma labels_in_a_row :
  exists w1 w2,
    __init__ "q" "a" true true "user" None None None None None None None
      {| proc := stepping_process; drawn := 0; heap := ∅ |}
    = (Returns (mk "00000000-0000-4000-8000-000000000000" None None "q" "a"
                  true true "user" None None None None), w1)
    /\ __init__ "q" "a" true true "user" (Some "") None None None None None
         None w1
       = (Returns (mk "ffffffff-ffff-4fff-bfff-ffffffffffff" None None "q"
                     "a" true true "user" None None None None), w2)
    /\ drawn w1 = 16 /\ drawn w2 = 32.
Proof.
  eexists _, _. split; [vm_compute; reflexivity|].
  split; [vm_compute; reflexivity|]. split; reflexivity.
Qed.

End LabelFacts.



(** ** Duplicate handling *)

Module StoreFacts.

Lemma str_in_In k l : str_in k l = true <-> In k l.
Proof.
  unfold str_in. rewrite existsb_exists. split.
  - intros [x [Hx E]]. apply String.eqb_eq in E. now subst.
  - intros Hk. exists k. split; [assumption|apply String.eqb_refl].
Qed.

Lemma str_in_false k l : str_in k l = false <-> ~ In k l.
Proof.
  rewrite <- str_in_In. destruct (str_in k l); split; congruence.
Qed.

(** *** The de-duplication within a batch *)

Lemma drop_seen_not_seen docs : forall seen d,
  In d (drop_seen seen docs) -> ~ In (Document.id d) seen.
Proof.
  induction docs as [|x docs IH]; intros seen d; simpl; [tauto|].
  destruct (str_in (Document.id x) seen) eqn:E.
  - apply IH.
  - intros [<-|Hd].
    + now apply str_in_false.
    + apply IH in Hd. intros Hs. apply Hd, in_or_app. now left.
Qed.

Lemma drop_seen_NoDup docs : forall seen,
  NoDup (map Document.id (drop_seen seen docs)).
Proof.
  induction docs as [|x docs IH]; intros seen; simpl; [constructor|].
  destruct (str_in (Document.id x) seen) eqn:E; [apply IH|].
  simpl. constructor; [|apply IH].
  rewrite list_elem_of_In, in_map_iff. intros (d & Hid & Hd).
  apply drop_seen_not_seen in Hd. apply Hd, in_or_app. right. simpl. auto.
Qed.

Lemma drop_seen_sublist docs : forall seen,
  sublist (drop_seen seen docs) docs.
Proof.
  induction docs as [|x docs IH]; intros seen; simpl; [constructor|].
  destruct (str_in (Document.id x) seen).
  - apply sublist_cons, IH.
  - apply sublist_skip, IH.
Qed.

Lemma drop_seen_first docs : forall seen d,
  In d (drop_seen seen docs) -> first_with_id docs (Document.id d) = Some d.
Proof.
  unfold first_with_id.
  induction docs as [|x docs IH]; intros seen d; simpl; [tauto|].
  destruct (str_in (Document.id x) seen) eqn:E.
  - intros Hd. pose proof (drop_seen_not_seen _ _ _ Hd) as Hns.
    destruct (String.eqb_spec (Document.id x) (Document.id d)) as [Heq|_].
    + apply str_in_In in E. rewrite Heq in E. contradiction.
    + now apply IH in Hd.
  - intros [<-|Hd]; [now rewrite String.eqb_refl|].
    pose proof (drop_seen_not_seen _ _ _ Hd) as Hns.
    destruct (String.eqb_spec (Document.id x) (Document.id d)) as [Heq|_].
    + exfalso. apply Hns, in_or_app. right. simpl. auto.
    + now apply IH in Hd.
Qed.

Lemma drop_seen_covers docs : forall seen d,
  In d docs ->
  In (Document.id d) seen
  \/ In (Document.id d) (map Document.id (drop_seen seen docs)).
Proof.
  induction docs as [|x docs IH]; intros seen d; simpl; [tauto|].
  destruct (str_in (Document.id x) seen) eqn:E.
  - intros [<-|Hd]; [left; now apply str_in_In|]. now apply IH.
  - intros [<-|Hd]; [right; simpl; auto|].
    destruct (IH (seen ++ [Document.id x]) d Hd) as [Hs|Hr].
    + apply in_app_or in Hs as [Hs|[<-|[]]]; [now left|right; simpl; auto].
    + right. simpl. auto.
Qed.


Lemma filter_sublist {A} (f : A -> bool) (l : list A) :
  sublist (List.filter f l) l.
Proof.
  induction l as [|x l IH]; simpl; [constructor|].
  destruct (f x); [now apply sublist_skip|now apply sublist_cons].
Qed.

Lemma map_sublist {A B} (f : A -> B) (l1 l2 : list A) :
  sublist l1 l2 -> sublist (map f l1) (map f l2).
Proof. induction 1; simpl; now constructor. Qed.

Lemma filter_all {A} (f : A -> bool) (l : list A) :
  (forall x, In x l -> f x = true) -> List.filter f l = l.
Proof.
  induction l as [|x l IH]; intros H; simpl; [reflexivity|].
  rewrite (H x) by (simpl; auto). f_equal. apply IH.
  intros y Hy. apply H. simpl. auto.
Qed.

(** *** What [_handle_duplicate_documents] does under each policy *)

Section AnyStore.

Context {Store : Type} `{BaseDocStore Store}.

Implicit Types (self : Store) (documents : list Document.t)
  (index_arg : option string).

(** The batch [skip] keeps. *)
Definition kept self documents index_arg : list Document.t :=
  List.filter
    (fun doc =>
       negb (str_in (Document.id doc) (ids_found self documents index_arg)))
    (_drop_duplicate_documents self documents).

Lemma handle_skip self documents index_arg :
  _handle_duplicate_documents self documents index_arg (Some "skip")
  = inr (kept self documents index_arg).
Proof.
  unfold _handle_duplicate_documents, kept, ids_found. simpl.
  now rewrite andb_false_r.
Qed.

Lemma handle_fail self documents index_arg :
  _handle_duplicate_documents self documents index_arg (Some "fail")
  = match ids_found self documents index_arg with
    | [] => inr (_drop_duplicate_documents self documents)
    | _ => inl (NameError "DuplicateDocumentError")
    end.
Proof.
  unfold _handle_duplicate_documents, ids_found. simpl.
  destruct (map Document.id _) as [|i ids] eqn:E; simpl; [|reflexivity].
  f_equal. now apply filter_all.
Qed.

Lemma handle_other self documents index_arg policy :
  policy <> Some "skip" -> policy <> Some "fail" ->
  _handle_duplicate_documents self documents index_arg policy
  = inr documents.
Proof.
  intros Hs Hf. unfold _handle_duplicate_documents.
  destruct policy as [p|]; simpl; [|reflexivity].
  destruct (String.eqb_spec p "skip") as [->|_]; [congruence|].
  destruct (String.eqb_spec p "fail") as [->|_]; [congruence|].
  reflexivity.
Qed.

End AnyStore.


(** *** The in-memory store *)

Lemma or_else_idem a b : or_else (or_else a b) b = or_else a b.
Proof.
  unfold or_else. destruct (Label.given a) eqn:Ea; [now rewrite Ea|].
  now destruct (Label.given b).
Qed.

Lemma upsert_absent ix d l :
  List.filter
    (fun e => MemoryStore.in_index ix e
              && str_in (Document.id e.2) [Document.id d]) l = [] ->
  MemoryStore.upsert ix d l = l ++ [(ix, d)].
Proof.
  induction l as [|e l IH]; simpl; [reflexivity|].
  rewrite orb_false_r.
  destruct (MemoryStore.in_index ix e
            && String.eqb (Document.id e.2) (Document.id d));
    [discriminate|].
  intros Hl. f_equal. apply IH. exact Hl.
Qed.

Lemma drop_same_id d1 d2 :
  Document.id d1 = Document.id d2 -> drop_duplicate_documents [d1; d2] = [d1].
Proof.
  intros E. unfold drop_duplicate_documents. simpl.
  now rewrite E, String.eqb_refl.
Qed.

Lemma chunks_single {A} (x : A) n : 0 < n -> chunks 1 n [x] = [[x]].
Proof. intros Hn. destruct n; [lia|]. simpl. now rewrite firstn_nil. Qed.

(** What a write of two documents with one id does to a store that has
    none with that id. *)
Lemma memory_store_skip (s : MemoryStore.t) d1 d2 index_arg batch_size :
  Document.id d1 = Document.id d2 ->
  MemoryStore.lookup s [Document.id d1] index_arg = [] ->
  let ix := or_else index_arg (MemoryStore.default_index s) in
  _handle_duplicate_documents s [d1; d2] index_arg (Some "skip") = inr [d1]
  /\ MemoryStore.write_documents s [d1; d2] index_arg batch_size (Some "skip")
     = (inr tt,
        MemoryStore.mk (MemoryStore.default_index s)
          (MemoryStore.stored s ++ [(ix, d1)]))
  /\ MemoryStore.lookup
       (MemoryStore.mk (MemoryStore.default_index s)
          (MemoryStore.stored s ++ [(ix, d1)]))
       [Document.id d1] index_arg = [d1].
Proof.
  intros Hid Hempty ix.
  assert (ids_found s [d1; d2] index_arg = []) as Hfound.
  { unfold ids_found.
    change (_drop_duplicate_documents s [d1; d2])
      with (drop_duplicate_documents [d1; d2]).
    rewrite (drop_same_id d1 d2 Hid).
    change (get_documents_by_id s) with (MemoryStore.lookup s).
    change (index s) with (MemoryStore.default_index s).
    unfold MemoryStore.lookup in *. rewrite or_else_idem.
    change (map Document.id [d1]) with [Document.id d1].
    now rewrite Hempty. }
  assert (_handle_duplicate_documents s [d1; d2] index_arg (Some "skip")
          = inr [d1]) as Hh.
  { rewrite handle_skip. unfold kept. rewrite Hfound.
    change (_drop_duplicate_documents s [d1; d2])
      with (drop_duplicate_documents [d1; d2]).
    now rewrite (drop_same_id d1 d2 Hid). }
  split; [exact Hh|]. split.
  - unfold MemoryStore.write_documents. rewrite Hh. fold ix.
    change (length [d1]) with 1. rewrite chunks_single by lia. simpl.
    unfold MemoryStore.submit. simpl. rewrite upsert_absent; [reflexivity|].
    unfold MemoryStore.lookup in Hempty. fold ix in Hempty.
    now apply map_eq_nil in Hempty.
  - clear Hfound Hh. unfold MemoryStore.lookup in *. simpl in *.
    fold ix in Hempty |- *.
    rewrite List.filter_app, List.map_app, Hempty. simpl.
    unfold MemoryStore.in_index. simpl.
    rewrite String.eqb_refl.
    rewrite (LabelFacts.eq_opt_refl String.eqb ix String.eqb_refl).
    reflexivity.
Qed.

(** The de-duplicated batch: the documents of the input that are the
    first of the input with their id. *)
Lemma drop_duplicate_first documents d :
  In d (drop_duplicate_documents documents) <->
  In d documents /\ first_with_id documents (Document.id d) = Some d.
Proof.
  split.
  - intros Hd. split; [|exact (drop_seen_first documents [] d Hd)].
    apply list_elem_of_In.
    eapply elem_of_sublist; [|apply (drop_seen_sublist documents [])].
    apply list_elem_of_In. exact Hd.
  - intros [Hd Hf].
    destruct (drop_seen_covers documents [] d Hd) as [[]|Hc].
    apply in_map_iff in Hc. destruct Hc as (d' & Hid & Hd').
    pose proof (drop_seen_first documents [] d' Hd') as Hf'.
    rewrite Hid, Hf in Hf'. now injection Hf' as ->.
Qed.

End StoreFacts.

(** C3, what the code does. Under [fail], when the lookup reports an id as
    existing, the call raises [NameError]: the name [DuplicateDocumentError]
    of the exception it means to raise is bound nowhere.  No batch is
    returned, and the exception carries neither the ids nor the index.  So
    it is on the store whose index holds a document with the id [a], for a
    batch with that id, and on any store.  When the lookup reports no id,
    the batch is returned. *)
Theorem fail_raises_name_error :
  ids_found example_store [example_doc "new" "a"; example_doc "x" "b"] None
    = ["a"]
  /\ _handle_duplicate_documents example_store
       [example_doc "new" "a"; example_doc "x" "b"] None (Some "fail")
     = inl (NameError "DuplicateDocumentError")
  /\ forall (Store : Type) (store : BaseDocStore Store) (self : Store)
            documents index_arg,
       (ids_found self documents index_arg <> [] ->
        _handle_duplicate_documents self documents index_arg (Some "fail")
        = inl (NameError "DuplicateDocumentError"))
       /\ (ids_found self documents index_arg = [] ->
           _handle_duplicate_documents self documents index_arg (Some "fail")
           = inr (_drop_duplicate_documents self documents)).
Proof.
  split; [reflexivity|]. split; [reflexivity|].
  intros Store store self documents index_arg.
  rewrite StoreFacts.handle_fail.
  destruct (ids_found self documents index_arg); split; congruence.
Qed.

(** C4, as the code has it. Under [skip], on any store, duplicate handling
    raises no error and returns the documents of the batch
    [_drop_duplicate_documents] made of the input whose id is not among the
    ids of the documents [get_documents_by_id] returned for the index.  On a
    store whose [_drop_duplicate_documents] is the de-duplication of the
    specification these are, in the order of the input, exactly the
    documents of the input that are the first of the input with their id
    and whose id is not among those ids.  In particular, on the in-memory
    store: two documents with one id, written in one batch to a store that
    has none with that id, leave exactly one document with that id stored,
    the first. *)
Theorem skip_drops_existing_ids :
  (forall (Store : Type) (store : BaseDocStore Store) (self : Store)
          documents index_arg,
     _handle_duplicate_documents self documents index_arg (Some "skip")
       = inr (StoreFacts.kept self documents index_arg)
     /\ ((forall l,
            _drop_duplicate_documents self l = drop_duplicate_documents l) ->
         sublist (StoreFacts.kept self documents index_arg) documents
         /\ forall d,
              In d (StoreFacts.kept self documents index_arg) <->
              In d documents
              /\ first_with_id documents (Document.id d) = Some d
              /\ ~ In (Document.id d) (ids_found self documents index_arg)))
  /\ (forall (s : MemoryStore.t) d1 d2 index_arg batch_size,
        Document.id d1 = Document.id d2 ->
        MemoryStore.lookup s [Document.id d1] index_arg = [] ->
        _handle_duplicate_documents s [d1; d2] index_arg (Some "skip")
          = inr [d1]
        /\ exists s',
             MemoryStore.write_documents s [d1; d2] index_arg batch_size
               (Some "skip") = (inr tt, s')
             /\ MemoryStore.lookup s' [Document.id d1] index_arg = [d1]
             /\ length (MemoryStore.stored s')
                = S (length (MemoryStore.stored s))).
Proof.
  split.
  - intros Store store self documents index_arg.
    split; [apply StoreFacts.handle_skip|]. intros Hdrop.
    unfold StoreFacts.kept. rewrite Hdrop. split.
    + etransitivity; [apply StoreFacts.filter_sublist|].
      apply StoreFacts.drop_seen_sublist.
    + intros d.
      rewrite filter_In, negb_true_iff, StoreFacts.str_in_false.
      rewrite StoreFacts.drop_duplicate_first. tauto.
  - intros s d1 d2 index_arg batch_size Hid Hempty.
    destruct (StoreFacts.memory_store_skip s d1 d2 index_arg batch_size
                Hid Hempty) as (Hh & Hw & Hl).
    split; [exact Hh|]. eexists. split; [exact Hw|]. split; [exact Hl|].
    simpl. rewrite length_app. simpl. lia.
Qed.

(** C4 as stated fails: of two documents of the input with the id [x],
    which the lookup does not report, the second is not returned. *)
Lemma skip_counterexample :
  In (example_doc "q" "x") [example_doc "p" "x"; example_doc "q" "x"]
  /\ ids_found example_store [example_doc "p" "x"; example_doc "q" "x"] None
     = []
  /\ ~ In (Document.id (example_doc "q" "x"))
         (ids_found example_store
            [example_doc "p" "x"; example_doc "q" "x"] None)
  /\ _handle_duplicate_documents example_store
       [example_doc "p" "x"; example_doc "q" "x"] None (Some "skip")
     = inr [example_doc "p" "x"]
  /\ ~ In (example_doc "q" "x") [example_doc "p" "x"].
Proof.
  split; [simpl; auto|]. split; [reflexivity|]. split; [intros []|].
  split; [reflexivity|]. intros [E|[]]. discriminate E.
Qed.

(** C5. Under [skip] and under [fail], on any store, the batch is handed
    to [_drop_duplicate_documents] first, and it is the batch that returns
    whose ids are looked up and that is filtered or returned; under
    [overwrite] the input is returned as it is, duplicates included.  On a
    store whose [_drop_duplicate_documents] is the de-duplication of the
    specification, that batch has every id of the input once, and its
    documents are those of the input that are the first with their id, in
    the order of the input. *)
Theorem batch_deduplicated_unless_overwrite
    (Store : Type) (store : BaseDocStore Store) (self : Store)
    (documents : list Document.t) (index_arg : option string) :
  let batch := _drop_duplicate_documents self documents in
  let ids :=
    map Document.id
      (get_documents_by_id self (map Document.id batch)
         (or_else index_arg (index self))) in
  _handle_duplicate_documents self documents index_arg (Some "skip")
  = inr (List.filter (fun doc => negb (str_in (Document.id doc) ids)) batch)
  /\ (ids = [] /\
      _handle_duplicate_documents self documents index_arg (Some "fail")
      = inr batch
      \/ ids <> [] /\
         _handle_duplicate_documents self documents index_arg (Some "fail")
         = inl (NameError "DuplicateDocumentError"))
  /\ _handle_duplicate_documents self documents index_arg (Some "overwrite")
     = inr documents
  /\ ((forall l,
         _drop_duplicate_documents self l = drop_duplicate_documents l) ->
      NoDup (map Document.id batch)
      /\ sublist batch documents
      /\ (forall d,
            In d batch <->
            In d documents
            /\ first_with_id documents (Document.id d) = Some d)
      /\ (forall d,
            In d documents -> In (Document.id d) (map Document.id batch))).
Proof.
  intros batch ids.
  assert (ids_found self documents index_arg = ids) as Hids by reflexivity.
  split; [apply StoreFacts.handle_skip|].
  split.
  { rewrite StoreFacts.handle_fail, Hids. fold batch.
    destruct ids as [|i ids']; [left; now split|right].
    split; [discriminate|reflexivity]. }
  split; [apply StoreFacts.handle_other; discriminate|].
  intros Hdrop. unfold batch. rewrite Hdrop.
  split; [apply StoreFacts.drop_seen_NoDup|].
  split; [apply StoreFacts.drop_seen_sublist|].
  split; [intros d; apply StoreFacts.drop_duplicate_first|].
  intros d Hd.
  destruct (StoreFacts.drop_seen_covers documents [] d Hd) as [[]|Hc].
  exact Hc.
Qed.

(** *** The theorems at a concrete store *)

Lemma skip_drops_existing_ids_witness :
  (forall l,
     _drop_duplicate_documents example_store l = drop_duplicate_documents l)
  /\ sublist
       (StoreFacts.kept example_store
          [example_doc "p" "x"; example_doc "q" "x"] None)
       [example_doc "p" "x"; example_doc "q" "x"].
Proof.
  assert (forall l, _drop_duplicate_documents example_store l
                    = drop_duplicate_documents l) as H
    by (intros l; reflexivity).
  split; [exact H|].
  exact (proj1 (proj2 (proj1 skip_drops_existing_ids MemoryStore.t
                         MemoryStore.store example_store
                         [example_doc "p" "x"; example_doc "q" "x"] None)
                  H)).
Defined.

Lemma batch_deduplicated_unless_overwrite_witness :
  (forall l,
     _drop_duplicate_documents example_store l = drop_duplicate_documents l)
  /\ sublist
       (_drop_duplicate_documents example_store
          [example_doc "p" "x"; example_doc "q" "x"])
       [example_doc "p" "x"; example_doc "q" "x"]
  /\ _handle_duplicate_documents example_store
       [example_doc "p" "x"; example_doc "q" "x"] None (Some "overwrite")
     = inr [example_doc "p" "x"; example_doc "q" "x"].
Proof.
  assert (forall l, _drop_duplicate_documents example_store l
                    = drop_duplicate_documents l) as H
    by (intros l; reflexivity).
  split; [exact H|].
  destruct (batch_deduplicated_unless_overwrite MemoryStore.t
              MemoryStore.store example_store
              [example_doc "p" "x"; example_doc "q" "x"] None)
    as (_ & _ & Ho & Hd).
  split; [exact (proj1 (proj2 (Hd H)))|exact Ho].
Defined.

Lemma lookahead_iterator_contract_witness :
  fst (NIterator.has_next
         (snd (NIterator.run [NIterator.CallNext]
                 (NIterator.__init__ VNone [VInt 7])))) = false
  /\ fst (NIterator.has_next
            (snd (NIterator.run [NIterator.CallHasNext; NIterator.CallNext]
                    (snd (NIterator.run [NIterator.CallNext]
                            (NIterator.__init__ VNone [VInt 7])))))) = false.
Proof.
  assert (fst (NIterator.has_next
                 (snd (NIterator.run [NIterator.CallNext]
                         (NIterator.__init__ VNone [VInt 7])))) = false) as H
    by reflexivity.
  split; [exact H|].
  exact (proj2 (proj2 (proj2
    (NIteratorFacts.lookahead_iterator_contract VNone [VInt 7])))
    [NIterator.CallNext] [NIterator.CallHasNext; NIterator.CallNext] H).
Defined.

(** ** The heap: what a call leaves as it was *)

Module FrameFacts.

Section Frame.

(** The heap at the time of the call. *)
Variable h0 : gmap loc Obj.

(** A value that refers to no object of [h0]. *)
Definition val_new (v : Val) : Prop :=
  match v with
  | VRef l => l ∉ dom h0
  | _ => True
  end.

(** [h] extends [h0] with objects that refer to no object of [h0]. *)
Definition extends (h : gmap loc Obj) : Prop :=
  h0 ⊆ h
  /\ forall l o, l ∉ dom h0 -> h !! l = Some o -> Forall val_new (obj_vals o).

(** [m] keeps the heap an extension of [h0], whatever its outcome, and
    what it returns satisfies [Q]. *)
Definition keeps {A} (m : Py A) (Q : A -> Prop) : Prop :=
  forall w, extends (heap w) ->
    extends (heap (m w).2)
    /\ match (m w).1 with Returns a => Q a | _ => True end.

Lemma extends_insert h l o :
  extends h -> l ∉ dom h0 -> Forall val_new (obj_vals o) ->
  extends (<[l:=o]> h).
Proof.
  intros [Hsub Hsep] Hl Ho. split.
  - apply insert_subseteq_r; [|assumption]. now apply not_elem_of_dom.
  - intros l1 o1 Hl1. rewrite lookup_insert. case_decide as E.
    + now intros [= <-].
    + now apply Hsep.
Qed.

Lemma extends_fresh h : extends h -> fresh (dom h) ∉ dom h0.
Proof.
  intros [Hsub _] Hin. apply (is_fresh (dom h)).
  eapply subseteq_dom; eassumption.
Qed.

Lemma keeps_ret {A} (a : A) (Q : A -> Prop) : Q a -> keeps (ret a) Q.
Proof. intros Ha w Hw. simpl. auto. Qed.

Lemma keeps_raise {A} e (Q : A -> Prop) : keeps (raise e) Q.
Proof. intros w Hw. simpl. auto. Qed.

Lemma keeps_bind {A B} (m : Py A) (k : A -> Py B) Q R :
  keeps m Q -> (forall a, Q a -> keeps (k a) R) -> keeps (bind m k) R.
Proof.
  intros Hm Hk w Hw. unfold bind. specialize (Hm w Hw).
  destruct (m w) as [[a|e| |] w1]; simpl in *; try tauto.
  destruct Hm as [Hw1 Ha]. now apply Hk.
Qed.

Lemma keeps_weaken {A} (m : Py A) (Q R : A -> Prop) :
  keeps m Q -> (forall a, Q a -> R a) -> keeps m R.
Proof.
  intros Hm HQR w Hw. specialize (Hm w Hw).
  destruct (m w) as [[a|e| |] w1]; simpl in *; intuition.
Qed.

Lemma keeps_lift {A} (r : Res A) : keeps (lift r) (fun _ => True).
Proof. destruct r; [apply keeps_raise|now apply keeps_ret]. Qed.

Lemma keeps_alloc o :
  Forall val_new (obj_vals o) -> keeps (alloc o) (fun l => l ∉ dom h0).
Proof.
  intros Ho w Hw. unfold alloc. simpl.
  pose proof (extends_fresh _ Hw) as Hf. split; [|assumption].
  now apply extends_insert.
Qed.

Lemma keeps_load l :
  keeps (load l) (fun o => l ∉ dom h0 -> Forall val_new (obj_vals o)).
Proof.
  intros w Hw. unfold load. destruct (heap w !! l) as [o|] eqn:E; simpl.
  - split; [assumption|]. intros Hl. destruct Hw as [_ Hsep]. eauto.
  - auto.
Qed.

Lemma keeps_store l o :
  l ∉ dom h0 -> Forall val_new (obj_vals o) ->
  keeps (store l o) (fun _ => True).
Proof.
  intros Hl Ho w Hw. unfold store. simpl. split; [|trivial].
  now apply extends_insert.
Qed.

Lemma keeps_truthy v : keeps (truthy v) (fun _ => True).
Proof.
  destruct v; try now apply keeps_ret.
  simpl. eapply keeps_bind; [apply keeps_load|].
  intros [[|kv its]|[|x xs]] _; now apply keeps_ret.
Qed.

Lemma keeps_py_str v : keeps (py_str v) (fun _ => True).
Proof.
  destruct v as [| [|] | | | |]; try now apply keeps_ret.
  all: intros w Hw; simpl; auto.
Qed.

Lemma keeps_items d :
  val_new d -> keeps (items d) (fun its => Forall val_new (map snd its)).
Proof.
  intros Hd. destruct d; try apply keeps_raise.
  simpl. eapply keeps_bind; [apply keeps_load|].
  intros [its|xs] Ho; [|apply keeps_raise].
  apply keeps_ret. now apply Ho.
Qed.

Lemma Forall_dict_get {A} (P : A -> Prop) k (its : list (string * A)) v :
  Forall P (map snd its) -> dict_get k its = Some v -> P v.
Proof.
  induction its as [|[k' v'] its IH]; simpl; [discriminate|].
  intros Hall. apply Forall_cons in Hall as [Hv' Hall].
  destruct (String.eqb k k'); [now intros [= <-]|auto].
Qed.

Lemma Forall_dict_set {A} (P : A -> Prop) k v (its : list (string * A)) :
  P v -> Forall P (map snd its) -> Forall P (map snd (dict_set k v its)).
Proof.
  intros Hv. induction its as [|[k' v'] its IH]; simpl.
  - intros _. repeat constructor. exact Hv.
  - intros Hall. apply Forall_cons in Hall as [Hv' Hall].
    destruct (String.eqb k k'); simpl; constructor; auto.
Qed.

Lemma keeps_getitem d k : val_new d -> keeps (getitem d k) val_new.
Proof.
  intros Hd. destruct d; try apply keeps_raise.
  simpl. eapply keeps_bind; [apply keeps_load|].
  intros [its|xs] Ho; [|apply keeps_raise].
  destruct (dict_get k its) as [v|] eqn:E; [|apply keeps_raise].
  apply keeps_ret. eapply Forall_dict_get; [|exact E]. now apply Ho.
Qed.

Lemma keeps_setitem d k v :
  val_new d -> val_new v -> keeps (setitem d k v) (fun _ => True).
Proof.
  intros Hd Hv. destruct d; try apply keeps_raise.
  simpl. eapply keeps_bind; [apply keeps_load|].
  intros [its|xs] Ho; [|apply keeps_raise].
  apply keeps_store; [assumption|]. simpl.
  apply Forall_dict_set; [assumption|]. now apply Ho.
Qed.

Lemma keeps_for_each {A} (l : list A) (body : A -> Py unit) :
  (forall x, In x l -> keeps (body x) (fun _ => True)) ->
  keeps (for_each l body) (fun _ => True).
Proof.
  induction l as [|x l IH]; intros H; simpl; [now apply keeps_ret|].
  eapply keeps_bind; [apply H; simpl; auto|].
  intros _ _. apply IH. intros y Hy. apply H. simpl. auto.
Qed.


(** *** deepcopy writes new objects only *)

Definition copying (st : CopySt) : Prop :=
  extends st.2 /\ forall l l', st.1 !! l = Some l' -> l' ∉ dom h0.

Lemma copy_list_keeps copy :
  (forall v st v' st',
     copy v st = Some (v', st') -> copying st -> copying st' /\ val_new v') ->
  forall vs st vs' st',
    copy_list copy vs st = Some (vs', st') -> copying st ->
    copying st' /\ Forall val_new vs'.
Proof.
  intros Hcopy. induction vs as [|v vs IH]; intros st vs' st'; simpl.
  - intros [= <- <-] Hst. auto.
  - destruct (copy v st) as [[v1 st1]|] eqn:E1; [|discriminate].
    destruct (copy_list copy vs st1) as [[vs2 st2]|] eqn:E2; [|discriminate].
    intros [= <- <-] Hst.
    destruct (Hcopy _ _ _ _ E1 Hst) as [Hst1 Hv1].
    destruct (IH _ _ _ E2 Hst1) as [Hst2 Hvs2]. auto.
Qed.

Lemma obj_vals_with o vs :
  Forall val_new vs -> Forall val_new (obj_vals (obj_with o vs)).
Proof.
  destruct o as [its|xs]; simpl; [|auto].
  generalize (map fst its) as ks. intros ks. revert vs.
  induction ks as [|k ks IH]; intros [|v vs] H; simpl; try constructor.
  - now apply Forall_cons in H as [? ?].
  - apply IH. now apply Forall_cons in H as [? ?].
Qed.

Lemma deepcopy_val_keeps fuel : forall v st v' st',
  deepcopy_val fuel v st = Some (v', st') -> copying st ->
  copying st' /\ val_new v'.
Proof.
  induction fuel as [|fuel IH]; intros v [m h] v' st' Hc Hst;
    destruct v as [| | | | |l]; simpl in Hc;
    try (injection Hc as <- <-; split; [assumption|exact I]).
  - destruct (m !! l) as [l'|] eqn:Em; [|discriminate].
    injection Hc as <- <-. split; [assumption|]. destruct Hst as [_ Hm].
    simpl. eauto.
  - destruct (m !! l) as [l'|] eqn:Em.
    { injection Hc as <- <-. split; [assumption|]. destruct Hst as [_ Hm].
      simpl. eauto. }
    destruct (h !! l) as [o|] eqn:Eh; [|discriminate].
    destruct (copy_list _ _ _) as [[vs' [m2 h2]]|] eqn:El; [|discriminate].
    injection Hc as <- <-. destruct Hst as [Hext Hm]. simpl in *.
    pose proof (extends_fresh _ Hext) as Hf.
    apply (copy_list_keeps _ IH) in El.
    + destruct El as [[Hext2 Hm2] Hvs']. simpl in *. split; [|assumption].
      split; [|assumption]. simpl.
      apply extends_insert; [assumption..|]. now apply obj_vals_with.
    + split; simpl.
      * apply extends_insert; [assumption..|]. now apply obj_vals_with.
      * intros x x'. rewrite lookup_insert. case_decide.
        -- now intros [= <-].
        -- apply Hm.
Qed.

Lemma keeps_deepcopy v : keeps (deepcopy v) val_new.
Proof.
  intros w Hw. unfold deepcopy.
  destruct (deepcopy_val _ _ _) as [[v' [m h]]|] eqn:E; simpl; [|auto].
  apply deepcopy_val_keeps in E.
  - destruct E as [[He _] Hv]. now split.
  - split; [exact Hw|]. intros l l'. simpl. now rewrite lookup_empty.
Qed.

(** *** The constructor and [from_dict] *)

Lemma keeps_init text i score probability question meta embedding keys ut :
  keeps
    (Document.__init__ text i score probability question meta embedding
       keys ut)
    (fun _ => True).
Proof.
  unfold Document.__init__.
  eapply keeps_bind; [apply keeps_truthy|]. intros b _.
  eapply keeps_bind with (Q := fun _ => True).
  { destruct b; [now apply keeps_ret|].
    eapply keeps_bind; [apply keeps_alloc; constructor|].
    intros l _. now apply keeps_ret. }
  intros meta' _.
  eapply keeps_bind with (Q := fun _ => True).
  { unfold Document.id_or_derived.
    destruct i; try apply keeps_py_str. apply keeps_lift. }
  intros i' _. now apply keeps_ret.
Qed.

Lemma keeps_cls kwargs : keeps (Document.cls kwargs) (fun _ => True).
Proof.
  unfold Document.cls. destruct (forallb _ _); [|apply keeps_raise].
  destruct (dict_get "text" kwargs); [|apply keeps_raise].
  apply keeps_init.
Qed.

Lemma keeps_from_dict dict field_map uuid_type :
  keeps (Document.from_dict dict field_map uuid_type) (fun _ => True).
Proof.
  unfold Document.from_dict.
  eapply keeps_bind; [apply keeps_deepcopy|]. intros _doc Hdoc.
  eapply keeps_bind; [now apply keeps_items|]. intros keys _.
  eapply keeps_bind with (Q := fun _ => True).
  { destruct (dict_has "meta" keys); [now apply keeps_ret|].
    eapply keeps_bind; [apply keeps_alloc; constructor|].
    intros m Hm. now apply keeps_setitem. }
  intros _ _.
  eapply keeps_bind; [now apply keeps_items|]. intros its Hits.
  eapply keeps_bind with (Q := fun _ => True).
  { apply keeps_for_each. intros [k v] Hkv. unfold Document.fold_into_meta.
    destruct (_ && _); [|now apply keeps_ret].
    eapply keeps_bind; [now apply keeps_getitem|]. intros m Hm.
    apply keeps_setitem; [assumption|]. simpl.
    rewrite List.Forall_forall in Hits. apply Hits.
    apply in_map_iff. now exists (k, v). }
  intros _ _.
  eapply keeps_bind; [now apply keeps_items|]. intros its' _.
  eapply keeps_bind; [apply keeps_truthy|]. intros given _.
  apply keeps_cls.
Qed.

End Frame.

(** C10. [from_dict] leaves every object that existed when it was called
    as it was, whatever the input, the field map and the outcome (a
    document or an exception): the input mapping, the mapping under its
    [meta] and everything else they refer to.  What is folded into [meta]
    goes to the copy. *)
Theorem from_dict_leaves_input dict field_map uuid_type (w : World) :
  forall l o,
    heap w !! l = Some o ->
    heap (Document.from_dict dict field_map uuid_type w).2 !! l = Some o.
Proof.
  destruct (keeps_from_dict (heap w) dict field_map uuid_type w) as [[H _] _].
  { split; [reflexivity|]. intros l o Hl Ho. exfalso. apply Hl.
    apply elem_of_dom. eauto. }
  intros l o Ho. eapply lookup_weaken; eassumption.
Qed.

End FrameFacts.

(** ** deepcopy makes an equal copy *)

Module CopyFacts.

Lemma obj_with_vals o : obj_with o (obj_vals o) = o.
Proof.
  destruct o as [its|xs]; simpl; [|reflexivity]. f_equal.
  induction its as [|[k v] its IH]; simpl; congruence.
Qed.

Lemma rename_mono m m' v :
  m ⊆ m' -> val_mapped m v -> rename_val m' v = rename_val m v.
Proof.
  intros Hsub. destruct v as [| | | | |l]; simpl; auto.
  intros [l' Hl]. rewrite Hl. now rewrite (lookup_weaken _ _ _ _ Hl Hsub).
Qed.

Lemma val_mapped_mono m m' v : m ⊆ m' -> val_mapped m v -> val_mapped m' v.
Proof.
  intros Hsub. destruct v as [| | | | |l]; simpl; auto.
  intros [l' Hl]. exists l'. eapply lookup_weaken; eassumption.
Qed.

Lemma rename_obj_mono m m' o :
  m ⊆ m' -> Forall (val_mapped m) (obj_vals o) ->
  rename_obj m' o = rename_obj m o.
Proof.
  intros Hsub Hall. unfold rename_obj. f_equal.
  apply map_ext_in. intros v Hv. apply rename_mono; [assumption|].
  rewrite List.Forall_forall in Hall. auto.
Qed.

Section Copy.

Variable h0 : gmap loc Obj.
Hypothesis h0_closed : closed h0.

Lemma copied_mono m m' h h' x x' :
  m ⊆ m' -> h ⊆ h' -> copied h0 m h x x' -> copied h0 m' h' x x'.
Proof.
  intros Hm Hh (o & Ho & Hx' & Hall). exists o. split; [assumption|]. split.
  - rewrite (rename_obj_mono m m') by assumption.
    eapply lookup_weaken; eassumption.
  - eapply Forall_impl; [exact Hall|]. intros v. now apply val_mapped_mono.
Qed.

Lemma step_ok_refl st : step_ok st st.
Proof. repeat split; auto. Qed.

Lemma step_ok_trans st1 st2 st3 :
  step_ok st1 st2 -> step_ok st2 st3 -> step_ok st1 st3.
Proof.
  intros (Hm1 & Hh1 & Hn1) (Hm2 & Hh2 & Hn2). split; [|split].
  - etransitivity; eassumption.
  - etransitivity; eassumption.
  - intros x x' Hx. destruct (Hn2 x x' Hx) as [H|H]; [now apply Hn1|].
    right. intros Hin. apply H. eapply subseteq_dom; eassumption.
Qed.

Lemma measure_mono (m m' : gmap loc loc) :
  m ⊆ m' -> size (dom h0 ∖ dom m') <= size (dom h0 ∖ dom m).
Proof.
  intros Hsub. apply subseteq_size.
  pose proof (subseteq_dom _ _ Hsub). set_solver.
Qed.

Lemma measure_insert (m : gmap loc loc) l l' :
  l ∈ dom h0 -> m !! l = None ->
  size (dom h0 ∖ dom (<[l:=l']> m)) < size (dom h0 ∖ dom m).
Proof.
  intros Hl Hm. apply subset_size. rewrite dom_insert_L.
  apply not_elem_of_dom in Hm. set_solver.
Qed.

Definition copy_spec (fuel : nat)
    (copy : Val -> CopySt -> option (Val * CopySt)) : Prop :=
  forall v st P,
    sim h0 P st -> val_in h0 v -> size (dom h0 ∖ dom st.1) <= fuel ->
    exists v' st',
      copy v st = Some (v', st')
      /\ sim h0 P st' /\ step_ok st st'
      /\ v' = rename_val st'.1 v /\ val_mapped st'.1 v.

Lemma copy_list_spec fuel copy :
  copy_spec fuel copy ->
  forall vs st P,
    sim h0 P st -> Forall (val_in h0) vs ->
    size (dom h0 ∖ dom st.1) <= fuel ->
    exists vs' st',
      copy_list copy vs st = Some (vs', st')
      /\ sim h0 P st' /\ step_ok st st'
      /\ vs' = map (rename_val st'.1) vs
      /\ Forall (val_mapped st'.1) vs.
Proof.
  intros Hcopy. induction vs as [|v vs IH]; intros st P Hsim Hvs Hfuel.
  - exists [], st. split; [reflexivity|]. split; [assumption|].
    split; [apply step_ok_refl|]. split; [reflexivity|constructor].
  - apply Forall_cons in Hvs as [Hv Hvs].
    destruct (Hcopy v st P Hsim Hv Hfuel)
      as (v1 & st1 & E1 & Hsim1 & Hstep1 & Hv1 & Hm1).
    assert (size (dom h0 ∖ dom st1.1) <= fuel) as Hfuel1.
    { etransitivity; [apply measure_mono, Hstep1|exact Hfuel]. }
    destruct (IH st1 P Hsim1 Hvs Hfuel1)
      as (vs2 & st2 & E2 & Hsim2 & Hstep2 & Hvs2 & Hm2).
    exists (v1 :: vs2), st2. simpl. rewrite E1, E2.
    split; [reflexivity|]. split; [assumption|].
    split; [eapply step_ok_trans; eassumption|].
    destruct Hstep2 as (Hsub2 & _ & _). split.
    + rewrite Hv1, Hvs2. f_equal. symmetry. now apply rename_mono.
    + constructor; [|assumption]. eapply val_mapped_mono; eassumption.
Qed.

Lemma copy_unchanged v st P :
  sim h0 P st -> val_mapped st.1 v ->
  exists v' st',
    Some (rename_val st.1 v, st) = Some (v', st')
    /\ sim h0 P st' /\ step_ok st st'
    /\ v' = rename_val st'.1 v /\ val_mapped st'.1 v.
Proof.
  intros Hsim Hv. exists (rename_val st.1 v), st.
  split; [reflexivity|]. split; [assumption|].
  split; [apply step_ok_refl|]. split; [reflexivity|assumption].
Qed.

Lemma deepcopy_val_spec fuel : copy_spec fuel (deepcopy_val fuel).
Proof.
  induction fuel as [|fuel IH]; intros v [m h] P Hsim Hv Hfuel.
  all: destruct v as [| | | | |l];
    try (match goal with
         | |- context [deepcopy_val _ ?v _] =>
             exact (copy_unchanged v (m, h) P Hsim I)
         end).
  all: simpl in Hv; simpl deepcopy_val.
  all: destruct (m !! l) as [l'|] eqn:Em;
    try (pose proof (copy_unchanged (VRef l) (m, h) P Hsim) as Hu;
         simpl in Hu; rewrite Em in Hu; apply Hu; eauto).
  - exfalso. simpl in Hfuel.
    pose proof (measure_insert m l l Hv Em). lia.
  - destruct Hsim as (Hsub & Hdom & Hent). simpl in *.
    apply elem_of_dom in Hv as [o Ho].
    rewrite (lookup_weaken _ _ _ _ Ho Hsub).
    set (l' := fresh (dom h)).
    assert (l' ∉ dom h) as Hl' by apply is_fresh.
    assert (h !! l' = None) as Hl'n by now apply not_elem_of_dom.
    assert (l' ∉ dom h0) as Hl'0.
    { intros Hin. apply Hl'. eapply subseteq_dom; eassumption. }
    set (st1 := (<[l:=l']> m, <[l':=obj_with o []]> h)).
    assert (m ⊆ st1.1) as Hm1 by now apply insert_subseteq.
    assert (h ⊆ st1.2) as Hh1 by now apply insert_subseteq.
    assert (sim h0 (P ∪ {[l]}) st1) as Hsim1.
    { split; [|split]; simpl.
      - etransitivity; eassumption.
      - rewrite dom_insert_L. apply elem_of_dom_2 in Ho. set_solver.
      - intros x x'. rewrite lookup_insert. case_decide as E.
        + intros [= <-]. subst x. split; [assumption|]. split.
          * rewrite dom_insert_L. set_solver.
          * left. set_solver.
        + intros Hx. destruct (Hent x x' Hx) as (Hx0 & Hxh & Hc).
          split; [assumption|]. split.
          * rewrite dom_insert_L. set_solver.
          * destruct Hc as [Hc|Hc]; [left; set_solver|right].
            eapply copied_mono; eassumption. }
    assert (size (dom h0 ∖ dom st1.1) <= fuel) as Hfuel1.
    { pose proof (measure_insert m l l' (elem_of_dom_2 _ _ _ Ho) Em).
      simpl. lia. }
    destruct (copy_list_spec fuel _ IH (obj_vals o) st1 _ Hsim1
                (h0_closed _ _ Ho) Hfuel1)
      as (vs' & [m2 h2] & E & Hsim2 & Hstep2 & Hvs' & Hmapped).
    fold l'. fold st1. rewrite E.
    destruct Hstep2 as (Hm2 & Hh2 & Hnew2). simpl in Hm2, Hh2, Hnew2.
    destruct Hsim2 as (Hsub2 & Hdom2 & Hent2). simpl in *.
    assert (m2 !! l = Some l') as Hl2.
    { eapply lookup_weaken; [|exact Hm2]. apply lookup_insert_eq. }
    assert (h2 !! l' = Some (obj_with o [])) as Hl'2.
    { eapply lookup_weaken; [|exact Hh2]. apply lookup_insert_eq. }
    eexists _, _. split; [reflexivity|]. simpl.
    assert (h ⊆ <[l':=obj_with o vs']> h2) as Hh3.
    { apply insert_subseteq_r; [assumption|].
      etransitivity; eassumption. }
    split; [|split; [|split]].
    + split; [|split]; simpl.
      * apply insert_subseteq_r; [now apply not_elem_of_dom|assumption].
      * assumption.
      * intros x x' Hx. destruct (Hent2 x x' Hx) as (Hx0 & Hxh & Hc).
        split; [assumption|]. split; [rewrite dom_insert_L; set_solver|].
        destruct (decide (x = l)) as [->|Hne].
        -- right. rewrite Hl2 in Hx. injection Hx as <-.
           exists o. split; [assumption|]. split; [|assumption].
           rewrite lookup_insert_eq. unfold rename_obj. now rewrite Hvs'.
        -- destruct Hc as [Hc|Hc]; [left; set_solver|right].
           destruct Hc as (ox & Hox & Hx' & Hall). exists ox.
           split; [assumption|]. split; [|assumption].
           rewrite lookup_insert_ne; [assumption|].
           intros <-. destruct (Hnew2 x l' Hx) as [H1|H1].
           ++ rewrite lookup_insert_ne in H1 by congruence.
              destruct (Hent x l' H1) as (_ & Hin & _). contradiction.
           ++ apply H1. rewrite dom_insert_L. set_solver.
    + split; [|split]; simpl.
      * etransitivity; eassumption.
      * exact Hh3.
      * intros x x' Hx. destruct (Hnew2 x x' Hx) as [H1|H1].
        -- rewrite lookup_insert in H1. case_decide as Ex.
           ++ injection H1 as <-. now right.
           ++ now left.
        -- right. intros Hin. apply H1. rewrite dom_insert_L. set_solver.
    + now rewrite Hl2.
    + eauto.
Qed.

End Copy.

End CopyFacts.

(** ** to_dict and from_dict *)

Module RoundTripFacts.
Import Document.

(** *** dict operations *)

Lemma dict_get_In {A} k (d : list (string * A)) v :
  dict_get k d = Some v -> In (k, v) d.
Proof.
  induction d as [|[k' v'] d IH]; simpl; [discriminate|].
  destruct (String.eqb_spec k k') as [->|_]; [intros [= ->]; auto|auto].
Qed.

Lemma dict_get_None {A} k (d : list (string * A)) :
  dict_get k d = None <-> ~ In k (map fst d).
Proof.
  induction d as [|[k' v'] d IH]; simpl; [tauto|].
  destruct (String.eqb_spec k k') as [->|Hne]; [split; [discriminate|tauto]|].
  rewrite IH. split; [intros H [E|Hin]; [congruence|tauto]|tauto].
Qed.

Lemma dict_get_NoDup {A} k v (d : list (string * A)) :
  NoDup (map fst d) -> In (k, v) d -> dict_get k d = Some v.
Proof.
  induction d as [|[k' v'] d IH]; simpl; [tauto|].
  intros Hnd. apply NoDup_cons in Hnd as [Hk' Hnd]. intros [[= -> ->]|Hin].
  - now rewrite String.eqb_refl.
  - destruct (String.eqb_spec k k') as [->|_]; [|auto].
    exfalso. apply Hk'. apply list_elem_of_In, in_map_iff. now exists (k', v).
Qed.


Lemma dict_set_absent {A} k v (d : list (string * A)) :
  dict_get k d = None -> dict_set k v d = d ++ [(k, v)].
Proof.
  induction d as [|[k' v'] d IH]; simpl; [reflexivity|].
  destruct (String.eqb k k'); [discriminate|]. intros H. now rewrite IH.
Qed.

Lemma dict_get_set_eq {A} k v (d : list (string * A)) :
  dict_get k (dict_set k v d) = Some v.
Proof.
  induction d as [|[k' v'] d IH]; simpl; [now rewrite String.eqb_refl|].
  destruct (String.eqb k k') eqn:E; simpl; [now rewrite String.eqb_refl|].
  now rewrite E.
Qed.

Lemma dict_get_set_ne {A} k k0 v (d : list (string * A)) :
  k0 <> k -> dict_get k0 (dict_set k v d) = dict_get k0 d.
Proof.
  intros Hne. induction d as [|[k' v'] d IH]; simpl.
  - destruct (String.eqb_spec k0 k); [contradiction|reflexivity].
  - destruct (String.eqb_spec k k') as [->|Hk]; simpl.
    + destruct (String.eqb_spec k0 k'); [contradiction|reflexivity].
    + destruct (String.eqb k0 k'); [reflexivity|exact IH].
Qed.

Lemma dict_set_keys {A} k v (d : list (string * A)) :
  In k (map fst d) -> map fst (dict_set k v d) = map fst d.
Proof.
  induction d as [|[k' v'] d IH]; simpl; [tauto|].
  destruct (String.eqb_spec k k') as [->|Hne]; [reflexivity|].
  intros [E|Hin]; [congruence|]. simpl. now rewrite IH.
Qed.


(** *** The keys [to_dict] emits *)











(** *** Copies are equal to their originals *)

Lemma val_in_mono h h' v : dom h ⊆ dom h' -> val_in h v -> val_in h' v.
Proof. destruct v; simpl; auto. Qed.

Lemma closed_insert h l o :
  closed h -> h !! l = None -> Forall (val_in h) (obj_vals o) ->
  closed (<[l:=o]> h).
Proof.
  intros Hc Hl Ho l1 o1. rewrite lookup_insert. case_decide as E.
  - intros [= <-]. eapply Forall_impl; [exact Ho|]. intros v.
    apply val_in_mono. rewrite dom_insert_L. set_solver.
  - intros H1. eapply Forall_impl; [exact (Hc _ _ H1)|]. intros v.
    apply val_in_mono. rewrite dom_insert_L. set_solver.
Qed.

(** [deepcopy] returns on a closed heap, and what it returns is the value
    renamed by a memo every entry of which leads to a finished copy. *)
Lemma deepcopy_returns v w :
  closed (heap w) -> val_in (heap w) v ->
  exists m h',
    deepcopy v w = (Returns (rename_val m v), set_heap h' w)
    /\ heap w ⊆ h'
    /\ val_mapped m v
    /\ forall x x',
         m !! x = Some x' ->
         (x' ∉ dom (heap w)) /\ copied (heap w) m h' x x'.
Proof.
  intros Hc Hv.
  destruct (CopyFacts.deepcopy_val_spec (heap w) Hc (S (size (heap w))) v
              (∅, heap w) ∅)
    as (v' & [m h'] & E & Hsim & Hstep & Hv' & Hm).
  - split; [reflexivity|]. split; [simpl; set_solver|].
    intros x x'. simpl. now rewrite lookup_empty.
  - exact Hv.
  - simpl. rewrite dom_empty_L, difference_empty_L, size_dom. lia.
  - exists m, h'. unfold deepcopy. rewrite E. simpl in *. subst v'.
    split; [reflexivity|]. destruct Hstep as (_ & Hh & _).
    split; [exact Hh|]. split; [exact Hm|].
    intros x x' Hx. destruct Hsim as (_ & _ & Hent).
    destruct (Hent x x' Hx) as (H0 & _ & [Hp|Hcp]); [set_solver|auto].
Qed.


Lemma related_mono (R R' : loc -> loc -> Prop) v v' :
  (forall x x', R x x' -> R' x x') -> related R v v' -> related R' v v'.
Proof. intros H. destruct v, v'; simpl; auto. Qed.

Lemma obj_related_mono (R R' : loc -> loc -> Prop) o o' :
  (forall x x', R x x' -> R' x x') -> obj_related R o o' -> obj_related R' o o'.
Proof.
  intros H. destruct o, o'; simpl; auto.
  - intros HF. eapply Forall2_impl; [exact HF|].
    intros x y [E Hr]. split; [assumption|].
    eapply related_mono; eassumption.
  - intros HF. eapply Forall2_impl; [exact HF|].
    intros x y. now apply related_mono.
Qed.



Lemma truthy_truth v w :
  truthy v w
  = match truth (heap w) v with
    | Some b => (Returns b, w)
    | None => (NoObject, w)
    end.
Proof.
  destruct v as [| | | | |l]; try reflexivity.
  unfold truthy, bind, load, truth.
  destruct (heap w !! l) as [[[|kv its]|[|x xs]]|]; reflexivity.
Qed.


Lemma truth_weaken h h' v b : h ⊆ h' -> truth h v = Some b -> truth h' v = Some b.
Proof.
  intros Hsub. destruct v as [| | | | |l]; simpl; auto.
  destruct (h !! l) as [o|] eqn:E; [|discriminate].
  now rewrite (lookup_weaken _ _ _ _ E Hsub).
Qed.



Lemma related_items (R : loc -> loc -> Prop) (g : Val -> option Tree)
    (a b : list (string * Val)) :
  (forall v v', related R v v' -> g v = g v') ->
  Forall2 (fun x y => x.1 = y.1 /\ related R x.2 y.2) a b ->
  map fst a = map fst b /\ map g (map snd a) = map g (map snd b).
Proof.
  intros Hg. induction 1 as [|x y a b [E Hxy] _ [IH1 IH2]]; [now split|].
  simpl. rewrite E, IH1, IH2, (Hg _ _ Hxy). now split.
Qed.

Lemma related_elems (R : loc -> loc -> Prop) (g : Val -> option Tree)
    (a b : list Val) :
  (forall v v', related R v v' -> g v = g v') ->
  Forall2 (related R) a b -> map g a = map g b.
Proof.
  intros Hg. induction 1 as [|x y a b Hxy _ IH]; [reflexivity|].
  simpl. now rewrite IH, (Hg _ _ Hxy).
Qed.

(** What [same_value] means for finite values: the same tree. *)
Lemma same_value_denote h v v' :
  same_value h v v' -> forall fuel, denote fuel h v = denote fuel h v'.
Proof.
  intros (R & Hbis & Hrel) fuel. revert v v' Hrel.
  induction fuel as [|fuel IH]; intros v v' Hrel.
  - destruct v, v'; simpl in *; try congruence; tauto.
  - destruct v as [| | | | |l], v' as [| | | | |l'];
      simpl in Hrel; try congruence; try tauto.
    destruct (Hbis l l' Hrel) as (o & o' & Ho & Ho' & Hoo).
    simpl. rewrite Ho, Ho'.
    destruct o as [a|a], o' as [b|b]; simpl in Hoo; try tauto.
    + destruct (related_items R (denote fuel h) a b IH Hoo) as [E1 E2].
      now rewrite E1, E2.
    + now rewrite (related_elems R (denote fuel h) a b IH Hoo).
Qed.

(** *** Folding unknown keys into meta *)

Lemma items_eq l w :
  items (VRef l) w
  = match heap w !! l with
    | Some (ODict its) => (Returns its, w)
    | Some (OList _) => (Raises AttributeError, w)
    | None => (NoObject, w)
    end.
Proof.
  unfold items, bind, load. destruct (heap w !! l) as [[its|xs]|]; reflexivity.
Qed.

Lemma getitem_eq l k w :
  getitem (VRef l) k w
  = match heap w !! l with
    | Some (ODict its) =>
        match dict_get k its with
        | Some v => (Returns v, w)
        | None => (Raises (KeyError k), w)
        end
    | Some (OList _) => (Raises TypeError, w)
    | None => (NoObject, w)
    end.
Proof.
  unfold getitem, bind, load. destruct (heap w !! l) as [[its|xs]|];
    try reflexivity.
  destruct (dict_get k its); reflexivity.
Qed.

Lemma setitem_eq l k v w :
  setitem (VRef l) k v w
  = match heap w !! l with
    | Some (ODict its) =>
        (Returns tt, set_heap (<[l:=ODict (dict_set k v its)]> (heap w)) w)
    | Some (OList _) => (Raises TypeError, w)
    | None => (NoObject, w)
    end.
Proof.
  unfold setitem, bind, load. destruct (heap w !! l) as [[its|xs]|];
    reflexivity.
Qed.

Section Folding.

Variables (d' : loc) (field_map : list (string * string)) (M : Val)
  (K : list string).

(** While the first loop of [from_dict] runs: the copy [_doc] keeps its
    keys and its [meta]; the entries folded so far are in the dict [meta]
    refers to. *)
Definition folding (h : gmap loc Obj) (S : list (string * Val)) : Prop :=
  (exists its,
     h !! d' = Some (ODict its)
     /\ map fst its = K
     /\ dict_get "meta" its = Some M)
  /\ forall k v,
       In (k, v) S ->
       exists lm its,
         M = VRef lm /\ h !! lm = Some (ODict its) /\ dict_get k its = Some v.

Definition folds (kv : string * Val) : bool :=
  negb (str_in kv.1 init_args) && negb (dict_has kv.1 field_map).

Lemma body_folding kv w w3 S :
  fold_into_meta (VRef d') field_map kv w = (Returns tt, w3) ->
  folding (heap w) S -> In kv.1 K ->
  (forall k v, In (k, v) S -> k <> kv.1) ->
  folding (heap w3) (if folds kv then kv :: S else S).
Proof.
  destruct kv as [k v']. unfold fold_into_meta, folds. cbn [fst snd].
  intros Hbody [(its & Hd' & Hkeys & Hmeta) HS] HK Hfresh.
  destruct (negb (str_in k init_args) && negb (dict_has k field_map)) eqn:Ec.
  2: { injection Hbody as <-. split; eauto. }
  assert (k <> "meta") as Hkm.
  { intros ->. apply andb_true_iff in Ec as [Ec _]. discriminate. }
  unfold bind in Hbody. rewrite getitem_eq, Hd', Hmeta in Hbody.
  assert (exists lm, M = VRef lm) as [lm EM].
  { destruct M; try discriminate. eauto. }
  rewrite EM, setitem_eq in Hbody.
  destruct (heap w !! lm) as [[itsM|xs]|] eqn:Elm; try discriminate.
  injection Hbody as <-. simpl.
  split.
  - destruct (decide (lm = d')) as [->|Hne].
    + rewrite Hd' in Elm. injection Elm as <-.
      exists (dict_set k v' its). rewrite lookup_insert_eq.
      split; [reflexivity|]. split.
      * rewrite dict_set_keys; [assumption|]. now rewrite Hkeys.
      * rewrite dict_get_set_ne; [assumption|]. congruence.
    + exists its. rewrite lookup_insert_ne by assumption. auto.
  - intros k0 v0 [[= <- <-]|Hin].
    + exists lm, (dict_set k v' itsM). rewrite lookup_insert_eq.
      split; [assumption|]. split; [reflexivity|]. apply dict_get_set_eq.
    + destruct (HS k0 v0 Hin) as (lm0 & its0 & E0 & Hl0 & Hg).
      assert (lm0 = lm) as -> by congruence.
      rewrite Elm in Hl0. injection Hl0 as <-.
      exists lm, (dict_set k v' itsM). rewrite lookup_insert_eq.
      split; [assumption|]. split; [reflexivity|].
      rewrite dict_get_set_ne; [assumption|]. now apply (Hfresh k0 v0).
Qed.


End Folding.


Lemma id_or_derived_world text i keys ut w :
  (id_or_derived text i keys ut w).2 = w.
Proof.
  unfold id_or_derived. destruct i as [| [|] | | | |]; try reflexivity.
  now destruct (_get_id text keys ut).
Qed.



Lemma rename_dict (m : gmap loc loc) its :
  rename_obj m (ODict its)
  = ODict (map (fun kv => (kv.1, rename_val m kv.2)) its).
Proof.
  unfold rename_obj. simpl. f_equal.
  induction its as [|[k v] its IH]; simpl; congruence.
Qed.


Lemma dict_get_app {A} k (a b : list (string * A)) :
  dict_get k (a ++ b)
  = match dict_get k a with
    | Some v => Some v
    | None => dict_get k b
    end.
Proof.
  induction a as [|[k' v'] a IH]; [reflexivity|].
  change (dict_get k (((k', v') :: a) ++ b))
    with (if String.eqb k k' then Some v' else dict_get k (a ++ b)).
  change (dict_get k ((k', v') :: a))
    with (if String.eqb k k' then Some v' else dict_get k a).
  now destruct (String.eqb k k').
Qed.



End RoundTripFacts.

(** The constructor leaves documents as [doc_in] describes them. *)
Lemma init_doc_in text i s p q meta e keys ut w D w' :
  closed (heap w) ->
  Forall (val_in (heap w)) [text; s; p; q; meta; e] ->
  Document.__init__ text i s p q meta e keys ut w = (Returns D, w') ->
  closed (heap w') /\ doc_in (heap w') D.
Proof.
  intros Hc Hin H. unfold Document.__init__ in H. unfold bind at 1 in H.
  rewrite RoundTripFacts.truthy_truth in H.
  destruct (truth (heap w) meta) as [[|]|] eqn:Et; try discriminate.
  - unfold bind at 1, ret at 1 in H. unfold bind in H.
    pose proof (RoundTripFacts.id_or_derived_world text i keys ut w) as Hw.
    destruct (Document.id_or_derived text i keys ut w) as [[i'| | |] w1];
      try discriminate.
    simpl in Hw. subst w1. injection H as <- <-.
    split; [assumption|]. split; [|left; assumption].
    simpl. repeat match goal with
                  | H : Forall _ (_ :: _) |- _ =>
                      apply Forall_cons in H as [? H]
                  end.
    repeat (constructor; [assumption|]). repeat constructor.
  - unfold bind at 1, alloc in H. unfold bind at 1, ret at 1 in H.
    unfold bind in H. set (l := fresh (dom (heap w))) in H.
    assert (heap w !! l = None) as Hl by apply not_elem_of_dom, is_fresh.
    pose proof (RoundTripFacts.id_or_derived_world text i keys ut
                  (set_heap (<[l:=ODict []]> (heap w)) w)) as Hw.
    destruct (Document.id_or_derived text i keys ut _) as [[i'| | |] w1];
      try discriminate.
    simpl in Hw. subst w1. injection H as <- <-. simpl heap.
    split; [apply RoundTripFacts.closed_insert; [assumption..|constructor]|].
    split.
    + simpl. repeat match goal with
                    | H : Forall _ (_ :: _) |- _ =>
                        apply Forall_cons in H as [? H]
                    end.
      assert (dom (heap w) ⊆ dom (<[l:=ODict []]> (heap w))) as Hsub
        by (rewrite dom_insert_L; set_solver).
      repeat (constructor;
              [try (eapply RoundTripFacts.val_in_mono; eassumption)|]).
      * simpl. rewrite dom_insert_L. set_solver.
      * exact I.
      * constructor.
    + right. exists l. split; [reflexivity|apply lookup_insert_eq].
Qed.





Lemma from_dict_leaves_input_witness :
  heap example_mapping_world !! 1%positive = Some (ODict [])
  /\ heap (Document.from_dict (VRef 3%positive) [] VNone
             example_mapping_world).2 !! 1%positive
     = Some (ODict []).
Proof.
  assert (heap example_mapping_world !! 1%positive = Some (ODict [])) as H
    by reflexivity.
  split; [exact H|].
  exact (FrameFacts.from_dict_leaves_input (VRef 3%positive) [] VNone
           example_mapping_world 1%positive (ODict []) H).
Defined.

(** * Further properties of the code *)

(** ** The lookahead iterator: has_next() guards next() *)

Module NIteratorGuard.
Import NIterator NIteratorFacts.
Section WithElements.

Context {T : Type} (none : T).

(** X1. After any calls on the iterator of a finite sequence: [has_next()]
    answers true exactly when [next()] returns an element and false exactly
    when it raises [StopIteration]; and [next()] returns the same with or
    without a [has_next()] before it. *)
Theorem has_next_guards_next (S : list T) (cs : list call) :
  let self := snd (run cs (__init__ none S)) in
  fst (next (snd (has_next self))) = fst (next self)
  /\ (fst (has_next self) = true <-> exists x, fst (next self) = inr x)
  /\ (fst (has_next self) = false <-> fst (next self) = inl StopIteration).
Proof.
  intros self.
  assert (consistent self) as Hc
    by (apply consistent_run, consistent_init).
  pose proof (consistent_has_next self Hc) as Hc'.
  pose proof (next_pending self Hc) as Hn.
  pose proof (next_pending _ Hc') as Hn'.
  rewrite (pending_has_next self Hc) in Hn'.
  rewrite (has_next_pending self Hc).
  split; [congruence|].
  destruct (pending self) as [|x l]; simpl in Hn; injection Hn as Hr _;
    rewrite Hr; split; split; try discriminate; try reflexivity.
  - intros [x Hx]. discriminate.
  - intros _. eauto.
Qed.

End WithElements.
End NIteratorGuard.

(** ** The Document constructor *)

Module ConstructorFacts.
Import Document.

(** The constructor, step by step: the truth value of [meta] decides
    whether a new dict is made; then the id is taken or derived. *)
Lemma init_eq text i s p q meta e keys ut w :
  __init__ text i s p q meta e keys ut w
  = match truth (heap w) meta with
    | None => (NoObject, w)
    | Some b =>
        let l := fresh (dom (heap w)) in
        let meta' := if b then meta else VRef l in
        let w1 := if b then w else set_heap (<[l:=ODict []]> (heap w)) w in
        match (id_or_derived text i keys ut w1).1 with
        | Returns i' => (Returns (mk text s p q meta' e i'), w1)
        | Raises ex => (Raises ex, w1)
        | NoObject => (NoObject, w1)
        | Unmodelled => (Unmodelled, w1)
        end
    end.
Proof.
  unfold __init__. unfold bind at 1. rewrite RoundTripFacts.truthy_truth.
  destruct (truth (heap w) meta) as [[|]|]; [| |reflexivity].
  - unfold bind at 1, ret at 1. unfold bind. cbv zeta.
    pose proof (RoundTripFacts.id_or_derived_world text i keys ut w) as Hw.
    destruct (id_or_derived text i keys ut w) as [[i'| | |] w1];
      simpl in Hw; subst w1; reflexivity.
  - unfold bind at 1, alloc. unfold bind at 1, ret at 1. unfold bind.
    cbv zeta.
    pose proof (RoundTripFacts.id_or_derived_world text i keys ut
                  (set_heap (<[fresh (dom (heap w)):=ODict []]> (heap w)) w))
      as Hw.
    destruct (id_or_derived text i keys ut _) as [[i'| | |] w1];
      simpl in Hw; subst w1; reflexivity.
Qed.

(** X2. A supplied id is kept, as a string, whatever the text and whatever
    the [uuid_type], which is not even looked at: no hash is computed and an
    unknown scheme raises nothing. *)
Theorem supplied_id_is_kept text s p q e keys ut w :
  (forall i,
     exists l,
       __init__ text (VStr i) s p q VNone e keys ut w
       = (Returns (mk text s p q (VRef l) e i),
          set_heap (<[l:=ODict []]> (heap w)) w))
  /\ (forall z,
        exists l,
          __init__ text (VInt z) s p q VNone e keys ut w
          = (Returns (mk text s p q (VRef l) e
                        (NilZero.string_of_int (Z.to_int z))),
             set_heap (<[l:=ODict []]> (heap w)) w)).
Proof.
  split; intros i; eexists; rewrite init_eq; reflexivity.
Qed.

(** X3. Without an id: a [uuid_type] other than [None], ["uuid3"] and
    ["uuid5"] is a [ValueError] whatever the text, and under a known scheme
    a text that is no [str] is a [TypeError]. *)
Theorem unknown_scheme_is_an_error text s p q e keys ut w :
  (ut <> VNone -> ut <> VStr "uuid3" -> ut <> VStr "uuid5" ->
   _get_id text keys ut = inl (ValueError choose_msg)
   /\ (__init__ text VNone s p q VNone e keys ut w).1
      = Raises (ValueError choose_msg))
  /\ ((forall T, text <> VStr T) ->
      In ut DocumentIdFacts.schemes ->
      _get_id text keys ut = inl TypeError
      /\ (__init__ text VNone s p q VNone e keys ut w).1 = Raises TypeError).
Proof.
  split.
  - intros H0 H3 H5.
    assert (_get_id text keys ut = inl (ValueError choose_msg)) as Hg.
    { unfold _get_id. destruct ut as [| | | |u|]; try reflexivity;
        [congruence|].
      destruct (String.eqb_spec u "uuid3") as [->|_]; [congruence|].
      destruct (String.eqb_spec u "uuid5") as [->|_]; [congruence|].
      reflexivity. }
    split; [exact Hg|]. rewrite init_eq. simpl. unfold lift. now rewrite Hg.
  - intros Ht Hut.
    assert (_get_id text keys ut = inl TypeError) as Hg.
    { destruct text as [| | | |T|]; try (now destruct (Ht T));
        destruct Hut as [<-|[<-|[<-|[]]]]; reflexivity. }
    split; [exact Hg|]. rewrite init_eq. simpl. unfold lift. now rewrite Hg.
Qed.

Lemma unknown_scheme_is_an_error_witness :
  VStr "uuid4" <> VNone /\ VStr "uuid4" <> VStr "uuid3"
  /\ VStr "uuid4" <> VStr "uuid5"
  /\ _get_id (VStr "hello") VNone (VStr "uuid4")
     = inl (ValueError choose_msg).
Proof.
  assert (VStr "uuid4" <> VNone) as H0 by discriminate.
  assert (VStr "uuid4" <> VStr "uuid3") as H3 by discriminate.
  assert (VStr "uuid4" <> VStr "uuid5") as H5 by discriminate.
  repeat (split; [assumption|]).
  exact (proj1 (proj1 (unknown_scheme_is_an_error (VStr "hello") VNone VNone
                         VNone VNone VNone (VStr "uuid4") example_world)
                  H0 H3 H5)).
Defined.

End ConstructorFacts.

(** ** Ids of the uuid schemes *)

Module UuidIdFacts.
Import Document.

Lemma to_bytes_le_bytes len : forall n,
  Forall (fun b => b < 256)%N (to_bytes_le len n)
  /\ length (to_bytes_le len n) = len.
Proof.
  induction len as [|len IH]; intros n; simpl.
  - split; [constructor|reflexivity].
  - destruct (IH (n / 256)%N) as [HF HL]. split.
    + constructor; [apply N.mod_lt; discriminate|exact HF].
    + now rewrite HL.
Qed.

Lemma to_bytes_be_bytes len n :
  Forall (fun b => b < 256)%N (to_bytes_be len n)
  /\ length (to_bytes_be len n) = len.
Proof.
  unfold to_bytes_be. destruct (to_bytes_le_bytes len n) as [HF HL]. split.
  - now apply List.Forall_rev.
  - now rewrite length_rev.
Qed.

Lemma md5_bytes msg :
  Forall (fun b => b < 256)%N (hashlib.md5 msg)
  /\ length (hashlib.md5 msg) = 16.
Proof.
  unfold hashlib.md5. cbv zeta.
  destruct (fold_left hashlib.md5_block _ _) as [[[a b] c] d].
  split.
  - rewrite !Forall_app. repeat split; apply to_bytes_le_bytes.
  - rewrite !length_app.
    now rewrite !(proj2 (to_bytes_le_bytes 4 _)).
Qed.

Lemma sha1_bytes msg :
  Forall (fun b => b < 256)%N (hashlib.sha1 msg)
  /\ length (hashlib.sha1 msg) = 20.
Proof.
  unfold hashlib.sha1. cbv zeta.
  destruct (fold_left hashlib.sha1_block _ _) as [[[[a b] c] d] e].
  split.
  - rewrite !Forall_app. repeat split; apply to_bytes_be_bytes.
  - rewrite !length_app.
    now rewrite !(proj2 (to_bytes_be_bytes 4 _)).
Qed.

Lemma length_uuid_of_bytes bs version :
  Forall (fun b => b < 256)%N bs -> 16 <= length bs -> (version < 16)%N ->
  String.length (uuid.str (uuid.UUID (firstn 16 bs) version)) = 36.
Proof.
  intros HF HL Hv. apply LabelFacts.length_uuid_str.
  unfold format_032x. rewrite length_zero_pad.
  assert (uuid.UUID (firstn 16 bs) version < 16 ^ N.of_nat 32)%N as Hlt.
  { change (16 ^ N.of_nat 32)%N with (2 ^ 128)%N. apply LabelFacts.UUID_lt.
    - now apply Forall_take.
    - rewrite length_firstn. lia.
    - exact Hv. }
  pose proof (length_format_x _ 32 ltac:(lia) Hlt). lia.
Qed.

(** X4. Under ["uuid3"] and ["uuid5"] every text gets an id of exactly 36
    characters; the default scheme gives at most 32, so an id of a uuid
    scheme is never the default id of any text. *)
Theorem uuid_ids_have_36_characters (T : string) (keys : Val) :
  exists i3 i5,
    _get_id (VStr T) keys (VStr "uuid3") = inr i3
    /\ _get_id (VStr T) keys (VStr "uuid5") = inr i5
    /\ String.length i3 = 36 /\ String.length i5 = 36
    /\ forall T' keys',
         _get_id (VStr T') keys' VNone <> inr i3
         /\ _get_id (VStr T') keys' VNone <> inr i5.
Proof.
  assert (String.length (uuid.str (uuid.uuid3 uuid.NAMESPACE_DNS T)) = 36)
    as H3.
  { apply length_uuid_of_bytes; [apply md5_bytes| |reflexivity].
    rewrite (proj2 (md5_bytes _)). lia. }
  assert (String.length (uuid.str (uuid.uuid5 uuid.NAMESPACE_DNS T)) = 36)
    as H5.
  { apply length_uuid_of_bytes; [apply sha1_bytes| |reflexivity].
    rewrite (proj2 (sha1_bytes _)). lia. }
  eexists _, _. split; [reflexivity|]. split; [reflexivity|].
  split; [exact H3|]. split; [exact H5|].
  intros T' keys'.
  change (_get_id (VStr T') keys' VNone)
    with (@inr Exc string (format_02x (mmh3.hash128 T'))).
  assert (String.length (format_02x (mmh3.hash128 T')) <= 32) as Hlen.
  { unfold format_02x. rewrite length_zero_pad.
    pose proof (length_format_x (mmh3.hash128 T') 32 ltac:(lia)
                  (DocumentIdFacts.hash128_lt T')).
    lia. }
  split; intros [= E]; rewrite E in Hlen; lia.
Qed.

End UuidIdFacts.

(** ** [meta or {}]: when the constructor makes a dict of its own *)

Module MetaFacts.
Import Document.

(** X5. The [meta] of a new document is the [meta] passed in, shared with the
    caller, when that counts as true.  When it counts as false ([None], or
    an empty dict of the caller's), the [meta] of the document is an empty
    dict made for it alone: an object that did not exist before, beside
    which every existing object is as it was. *)
Theorem meta_is_shared_or_new text i s p q meta e keys ut w D w' :
  __init__ text i s p q meta e keys ut w = (Returns D, w') ->
  (truth (heap w) meta = Some true /\ Document.meta D = meta /\ w' = w)
  \/ (truth (heap w) meta = Some false
      /\ exists l,
           Document.meta D = VRef l
           /\ Document.meta D <> meta
           /\ heap w !! l = None
           /\ w' = set_heap (<[l:=ODict []]> (heap w)) w
           /\ forall l' o, heap w !! l' = Some o -> heap w' !! l' = Some o).
Proof.
  rewrite ConstructorFacts.init_eq.
  destruct (truth (heap w) meta) as [[|]|] eqn:Et; [| |discriminate];
    cbv zeta.
  - destruct (id_or_derived text i keys ut w).1; try discriminate.
    intros [= <- <-]. left. auto.
  - destruct (id_or_derived text i keys ut _).1; try discriminate.
    intros [= <- <-]. right. split; [reflexivity|].
    set (l := fresh (dom (heap w))).
    assert (heap w !! l = None) as Hl by apply not_elem_of_dom, is_fresh.
    exists l. split; [reflexivity|]. split.
    { simpl. intros <-. simpl in Et. now rewrite Hl in Et. }
    split; [exact Hl|]. split; [reflexivity|].
    intros l' o Hl'. simpl. rewrite lookup_insert_ne; [exact Hl'|].
    intros <-. congruence.
Qed.

Lemma meta_is_shared_or_new_witness :
  exists D w',
    __init__ (VStr "t") VNone VNone VNone VNone (VRef 1%positive) VNone VNone
      VNone example_mapping_world = (Returns D, w')
    /\ Document.meta D <> VRef 1%positive.
Proof.
  eexists _, _. split; [vm_compute; reflexivity|].
  match goal with
  | |- Document.meta ?D <> _ =>
      destruct (meta_is_shared_or_new (VStr "t") VNone VNone VNone VNone
                  (VRef 1%positive) VNone VNone VNone example_mapping_world
                  D _ ltac:(vm_compute; reflexivity))
        as [(Ht & _)|(_ & l & _ & Hne & _)]
  end.
  - vm_compute in Ht. discriminate.
  - exact Hne.
Defined.

End MetaFacts.

(** ** [to_dict]: a new dict over the same values *)

Module ToDictFacts.
Import Document.

Lemma dict_set_In {A} k v (d : list (string * A)) k' v' :
  In (k', v') (dict_set k v d) -> (k', v') = (k, v) \/ In (k', v') d.
Proof.
  induction d as [|[k0 v0] d IH]; simpl.
  - intros [E|[]]. now left.
  - destruct (String.eqb k k0); simpl.
    + intros [E|H]; auto.
    + intros [E|H]; auto. destruct (IH H); auto.
Qed.

Lemma dict_set_NoDup {A} k v (d : list (string * A)) :
  NoDup (map fst d) -> NoDup (map fst (dict_set k v d)).
Proof.
  intros Hnd. destruct (dict_get k d) as [v0|] eqn:E.
  - assert (In k (map fst d)) as Hin.
    { destruct (in_dec string_dec k (map fst d)) as [Hin|Hn]; [exact Hin|].
      apply RoundTripFacts.dict_get_None in Hn. congruence. }
    revert Hin Hnd. clear E.
    induction d as [|[k0 v0'] d IH]; simpl; [tauto|].
    destruct (String.eqb_spec k k0) as [->|Hne]; [auto|].
    intros [E0|Hin] Hnd'; [congruence|].
    apply NoDup_cons in Hnd' as [Hk0 Hnd']. simpl. apply NoDup_cons.
    rewrite RoundTripFacts.dict_set_keys by assumption. auto.
  - rewrite RoundTripFacts.dict_set_absent by assumption.
    rewrite map_app. simpl. apply NoDup_app. split; [assumption|].
    split; [|repeat constructor; set_solver].
    intros k' Hk' Hk. apply list_elem_of_In in Hk'.
    apply list_elem_of_In in Hk. destruct Hk as [<-|[]].
    assert (~ In k (map fst d)) as Hn; [|contradiction].
    intros Hin. destruct (dict_get k d) eqn:E'; [discriminate|].
    revert Hin E'. clear. induction d as [|[k0 v0] d IH]; simpl; [tauto|].
    destruct (String.eqb_spec k k0) as [->|Hne]; [discriminate|].
    intros [E|Hin]; [congruence|auto].
Qed.

Lemma dict_has_set {A} k v (d : list (string * A)) k' :
  k' = k \/ dict_has k' d = true -> dict_has k' (dict_set k v d) = true.
Proof.
  unfold dict_has. intros [->|H].
  - now rewrite RoundTripFacts.dict_get_set_eq.
  - destruct (String.eqb_spec k' k) as [->|Hne].
    + now rewrite RoundTripFacts.dict_get_set_eq.
    + now rewrite RoundTripFacts.dict_get_set_ne.
Qed.

(** What filling a dict entry by entry gives. *)
Lemma fill_spec {B} (key : B -> string) (val : B -> Val) (l : list B) :
  forall acc,
    NoDup (map fst acc) ->
    let d := fold_left (fun d x => dict_set (key x) (val x) d) l acc in
    NoDup (map fst d)
    /\ (forall k v, In (k, v) d ->
          In (k, v) acc \/ exists x, In x l /\ k = key x /\ v = val x)
    /\ (forall x, In x l -> dict_has (key x) d = true)
    /\ (forall k, dict_has k acc = true -> dict_has k d = true).
Proof.
  induction l as [|x l IH]; intros acc Hnd; simpl.
  - split; [assumption|]. split; [auto|]. split; [intros x []|auto].
  - destruct (IH (dict_set (key x) (val x) acc) (dict_set_NoDup _ _ _ Hnd))
      as (H1 & H2 & H3 & H4).
    split; [exact H1|]. split; [|split].
    + intros k v Hin. destruct (H2 k v Hin) as [Ha|(y & Hy & E)].
      * apply dict_set_In in Ha as [[= -> ->]|Ha]; [|auto].
        right. exists x. auto.
      * right. exists y. auto.
    + intros y [<-|Hy]; [|auto]. apply H4, dict_has_set. now left.
    + intros k Hk. apply H4, dict_has_set. now right.
Qed.

(** X6. [to_dict] returns a dict that did not exist before and changes no
    existing object, whatever the field map.  The values of the dict are
    the attributes of the document themselves, not copies (the dict shares
    [meta] with the document), each under the key of [emitted_key]; the key
    of every attribute is there.  With an empty field map the dict is
    [__dict__]: the seven attributes under their names, in order. *)
Theorem to_dict_shares_the_attributes (D : t) field_map (w : World) :
  exists l its,
    to_dict D field_map w
    = (Returns (VRef l), set_heap (<[l:=ODict its]> (heap w)) w)
    /\ heap w !! l = None
    /\ (forall l' o, heap w !! l' = Some o ->
          (<[l:=ODict its]> (heap w)) !! l' = Some o)
    /\ NoDup (map fst its)
    /\ (forall k v, In (k, v) its ->
          exists a, In (a, v) (__dict__ D) /\ k = emitted_key field_map a)
    /\ (forall a v, In (a, v) (__dict__ D) ->
          dict_has (emitted_key field_map a) its = true)
    /\ (field_map = [] -> its = __dict__ D).
Proof.
  set (l := fresh (dom (heap w))).
  assert (heap w !! l = None) as Hl by apply not_elem_of_dom, is_fresh.
  exists l. eexists. split; [reflexivity|]. split; [exact Hl|]. split.
  { intros l' o Hl'. rewrite lookup_insert_ne; [exact Hl'|].
    intros <-. congruence. }
  change (fold_left _ (__dict__ D) [])
    with (fold_left
            (fun d kv => dict_set (emitted_key field_map kv.1) kv.2 d)
            (__dict__ D) []).
  destruct (fill_spec (fun kv => emitted_key field_map kv.1) snd (__dict__ D)
              [] (NoDup_nil_2)) as (H1 & H2 & H3 & _).
  split; [exact H1|]. split; [|split].
  - intros k v Hin. destruct (H2 k v Hin) as [[]|([a v'] & Hx & -> & ->)].
    exists a. auto.
  - intros a v Hin. exact (H3 (a, v) Hin).
  - intros ->. reflexivity.
Qed.

End ToDictFacts.

(** ** [from_dict]: what is no mapping, and mappings without a text *)

Module FromDictFacts.
Import Document.

Lemma set_heap_same w : set_heap (heap w) w = w.
Proof. now destruct w. Qed.

Lemma deepcopy_scalar v w :
  (forall l, v <> VRef l) -> deepcopy v w = (Returns v, w).
Proof.
  intros Hv. unfold deepcopy.
  destruct v as [| | | | |l]; try (simpl; now rewrite set_heap_same).
  now destruct (Hv l).
Qed.

(** X7. [from_dict] of what is no dict is an [AttributeError], raised where
    the keys are asked for: of [None], a number or a string, with nothing
    changed, and of a list, after the list was copied. *)
Theorem from_dict_wants_a_mapping dict field_map uuid_type (w : World) :
  ((forall l, dict <> VRef l) ->
   from_dict dict field_map uuid_type w = (Raises AttributeError, w))
  /\ (forall l xs,
        dict = VRef l -> heap w !! l = Some (OList xs) -> closed (heap w) ->
        (from_dict dict field_map uuid_type w).1 = Raises AttributeError).
Proof.
  split.
  - intros Hv. unfold from_dict. unfold bind at 1.
    rewrite deepcopy_scalar by assumption.
    destruct dict as [| | | | |l]; try reflexivity. now destruct (Hv l).
  - intros l xs -> Hl Hc.
    destruct (RoundTripFacts.deepcopy_returns (VRef l) w Hc)
      as (m & h1 & Ecopy & Hh1 & [l' Hl'] & Hcp).
    { simpl. apply elem_of_dom. eauto. }
    simpl in Ecopy. rewrite Hl' in Ecopy.
    destruct (Hcp l l' Hl') as (_ & o & Ho & Ho' & _).
    rewrite Hl in Ho. injection Ho as <-.
    unfold from_dict. unfold bind at 1. rewrite Ecopy.
    unfold bind at 1. rewrite RoundTripFacts.items_eq. simpl heap.
    rewrite Ho'. reflexivity.
Qed.

Lemma from_dict_wants_a_mapping_witness :
  (forall l, VStr "text" <> VRef l)
  /\ from_dict (VStr "text") [] VNone example_world
     = (Raises AttributeError, example_world).
Proof.
  assert (forall l : loc, VStr "text" <> VRef l) as H by discriminate.
  split; [exact H|].
  exact (proj1 (from_dict_wants_a_mapping (VStr "text") [] VNone
                  example_world) H).
Defined.

End FromDictFacts.

(** ** [from_dict] of a mapping with no text *)

Module MissingTextFacts.
Import Document RoundTripFacts.

Lemma truth_val_in h v : val_in h v -> exists b, truth h v = Some b.
Proof.
  destruct v as [| | | | |l]; simpl; eauto.
  intros Hin. apply elem_of_dom in Hin as [o Ho]. rewrite Ho.
  destruct o as [[|kv its]|[|x xs]]; eauto.
Qed.

Lemma renamed_in h0 (m : gmap loc loc) h1 v :
  val_mapped m v ->
  (forall x x', m !! x = Some x' -> copied h0 m h1 x x') ->
  val_in h1 (rename_val m v).
Proof.
  destruct v as [| | | | |l]; simpl; auto.
  intros [l' Hl] Hcp. rewrite Hl. simpl.
  destruct (Hcp l l' Hl) as (o & _ & Ho' & _). apply elem_of_dom. eauto.
Qed.

(** One turn of the first loop, on a [_doc] that has a [meta]. *)
Lemma fold_into_meta_eq d' field_map kv w its M :
  heap w !! d' = Some (ODict its) -> dict_get "meta" its = Some M ->
  fold_into_meta (VRef d') field_map kv w
  = if folds field_map kv then setitem M kv.1 kv.2 w else (Returns tt, w).
Proof.
  intros Hd Hm. unfold fold_into_meta, folds.
  destruct (negb _ && negb _); [|reflexivity].
  unfold bind. now rewrite getitem_eq, Hd, Hm.
Qed.

(** It returns, leaving [_doc] its keys and its [meta], or it raises a
    [TypeError] (a [meta] that is no dict takes no item). *)
Lemma body_outcome d' field_map M K kv w :
  folding d' M K (heap w) [] -> val_in (heap w) M -> In kv.1 K ->
  (exists w3,
     fold_into_meta (VRef d') field_map kv w = (Returns tt, w3)
     /\ folding d' M K (heap w3) []
     /\ dom (heap w3) = dom (heap w))
  \/ (exists w3,
        fold_into_meta (VRef d') field_map kv w = (Raises TypeError, w3)).
Proof.
  intros Hinv HM HK.
  assert (forall k0 v0, In (k0, v0) (@nil (string * Val)) -> k0 <> kv.1)
    as Hfresh by (intros ? ? []).
  assert (forall w3,
            fold_into_meta (VRef d') field_map kv w = (Returns tt, w3) ->
            folding d' M K (heap w3) []) as Hkeep.
  { intros w3 Eb.
    pose proof (body_folding d' field_map M K kv w w3 [] Eb Hinv HK Hfresh)
      as [Hd _].
    split; [exact Hd|intros ? ? []]. }
  destruct Hinv as [(its & Hd' & Hkeys & Hmeta) _].
  rewrite (fold_into_meta_eq _ _ _ _ _ _ Hd' Hmeta) in Hkeep |- *.
  destruct (folds field_map kv) eqn:Ef.
  2: { left. exists w. split; [reflexivity|].
       split; [apply Hkeep; reflexivity|reflexivity]. }
  destruct M as [| | | | |lm]; try (right; eexists; reflexivity).
  rewrite setitem_eq in Hkeep |- *. simpl in HM.
  apply elem_of_dom in HM as [o Ho]. rewrite Ho in Hkeep |- *.
  destruct o as [itsM|xs]; [|right; eexists; reflexivity].
  left. eexists. split; [reflexivity|].
  split; [apply Hkeep; reflexivity|].
  simpl. rewrite dom_insert_L. apply elem_of_dom_2 in Ho. set_solver.
Qed.

Lemma loop_outcome d' field_map M K l : forall w,
  folding d' M K (heap w) [] -> val_in (heap w) M -> incl (map fst l) K ->
  (exists w3,
     for_each l (fold_into_meta (VRef d') field_map) w = (Returns tt, w3)
     /\ folding d' M K (heap w3) []
     /\ dom (heap w3) = dom (heap w))
  \/ (exists w3,
        for_each l (fold_into_meta (VRef d') field_map) w
        = (Raises TypeError, w3)).
Proof.
  induction l as [|kv l IH]; intros w Hinv HM Hincl.
  - left. exists w. auto.
  - cbn [for_each]. unfold bind.
    destruct (body_outcome d' field_map M K kv w Hinv HM)
      as [(w1 & E & Hinv1 & Hdom)|(w1 & E)].
    { apply Hincl. now left. }
    + rewrite E.
      destruct (IH w1 Hinv1) as [(w3 & E3 & Hinv3 & Hdom3)|(w3 & E3)].
      * apply (val_in_mono (heap w)); [now rewrite Hdom|assumption].
      * intros k Hk. apply Hincl. now right.
      * left. exists w3. split; [exact E3|]. split; [assumption|congruence].
      * right. exists w3. exact E3.
    + right. exists w1. now rewrite E.
Qed.

Lemma keep_known_no_text field_map its : forall acc,
  (forall k, In k (map fst its) ->
     k <> "text"
     /\ (str_in k init_args = false -> dict_get k field_map <> Some "text")) ->
  dict_get "text" (fold_left (keep_known field_map) its acc)
  = dict_get "text" acc.
Proof.
  induction its as [|[k v] its IH]; intros acc Hk; [reflexivity|].
  change (fold_left (keep_known field_map) ((k, v) :: its) acc)
    with (fold_left (keep_known field_map) its
            (keep_known field_map acc (k, v))).
  rewrite IH by (intros k0 Hk0; apply Hk; now right).
  destruct (Hk k (or_introl eq_refl)) as [Hne Hren].
  unfold keep_known. cbn [fst snd].
  destruct (str_in k init_args) eqn:Ei.
  - apply dict_get_set_ne. congruence.
  - destruct (dict_get k field_map) as [k2|] eqn:E2; [|reflexivity].
    apply dict_get_set_ne. intros <-. now apply Hren.
Qed.

Lemma cls_without_text kwargs w :
  dict_get "text" kwargs = None -> cls kwargs w = (Raises TypeError, w).
Proof. intros E. unfold cls. rewrite E. now destruct (forallb _ _). Qed.

(** The step of [from_dict] that makes sure [_doc] has a [meta] leaves a
    [meta] that is a value of the heap. *)
Lemma ensure_meta_in (d' : loc) its1 w1 :
  heap w1 !! d' = Some (ODict its1) ->
  (forall v, dict_get "meta" its1 = Some v -> val_in (heap w1) v) ->
  exists w2 its2 M,
    (if dict_has "meta" its1 then ret tt
     else m <- alloc (ODict []) ;; setitem (VRef d') "meta" (VRef m)) w1
    = (Returns tt, w2)
    /\ heap w2 !! d' = Some (ODict its2)
    /\ dict_get "meta" its2 = Some M
    /\ val_in (heap w2) M
    /\ dom (heap w1) ⊆ dom (heap w2)
    /\ (forall k, In k (map fst its2) -> k = "meta" \/ In k (map fst its1)).
Proof.
  intros Hd' Hin. unfold dict_has.
  destruct (dict_get "meta" its1) as [M|] eqn:Em.
  - exists w1, its1, M. repeat split; auto.
  - set (mm := fresh (dom (heap w1))).
    assert (mm <> d') as Hne.
    { intros E. apply (is_fresh (dom (heap w1))). fold mm. rewrite E.
      apply elem_of_dom. eauto. }
    eexists _, (its1 ++ [("meta", VRef mm)]), (VRef mm).
    unfold bind, alloc. rewrite setitem_eq. simpl heap. fold mm.
    rewrite lookup_insert_ne, Hd' by assumption.
    rewrite dict_set_absent by assumption.
    split; [reflexivity|]. simpl heap. rewrite lookup_insert_eq.
    split; [reflexivity|]. split; [|split; [|split]].
    + rewrite dict_get_app, Em. apply (dict_get_set_eq "meta" _ []).
    + simpl. rewrite !dom_insert_L. set_solver.
    + rewrite !dom_insert_L. set_solver.
    + intros k. rewrite map_app, in_app_iff.
      intros [H|[<-|[]]]; auto.
Qed.

(** X8. A mapping that has no key [text], and no key the field map renames to
    [text], makes no document: [from_dict] raises a [TypeError], from the
    constructor, which misses its [text], if not before. *)
Theorem from_dict_without_text_is_a_type_error w d its0 field_map ut :
  closed (heap w) ->
  heap w !! d = Some (ODict its0) ->
  val_in (heap w) ut ->
  (forall k, In k (map fst its0) ->
     k <> "text"
     /\ (str_in k init_args = false -> dict_get k field_map <> Some "text")) ->
  (from_dict (VRef d) field_map ut w).1 = Raises TypeError.
Proof.
  intros Hc Hd Hut Hno.
  destruct (deepcopy_returns (VRef d) w Hc)
    as (m & h1 & Ecopy & Hh1 & [d' Hd'] & Hcp).
  { simpl. apply elem_of_dom. eauto. }
  simpl in Ecopy. rewrite Hd' in Ecopy.
  destruct (Hcp d d' Hd') as (_ & o & Ho & Ho' & Hmapped).
  rewrite Hd in Ho. injection Ho as <-. rewrite rename_dict in Ho'.
  set (its1 := map (fun kv => (kv.1, rename_val m kv.2)) its0) in *.
  assert (map fst its1 = map fst its0) as Hkeys1.
  { unfold its1. rewrite map_map. reflexivity. }
  destruct (ensure_meta_in d' its1 (set_heap h1 w) Ho')
    as (w2 & its2 & M & Estep & Hd2 & HM & HMin & Hdom2 & Hkeys2).
  { intros v Hv. apply dict_get_In in Hv. unfold its1 in Hv.
    apply in_map_iff in Hv as ([k0 v0] & [= _ <-] & Hin0).
    simpl. apply (renamed_in (heap w)).
    - rewrite List.Forall_forall in Hmapped. apply Hmapped.
      apply in_map_iff. now exists (k0, v0).
    - intros x x' Hx. exact (proj2 (Hcp x x' Hx)). }
  unfold from_dict. unfold bind at 1. rewrite Ecopy.
  unfold bind at 1. rewrite items_eq. simpl heap. rewrite Ho'.
  unfold bind at 1. rewrite Estep.
  unfold bind at 1. rewrite items_eq, Hd2.
  unfold bind at 1.
  destruct (loop_outcome d' field_map M (map fst its2) its2 w2)
    as [(w3 & Eloop & [(its3 & Hd3 & Hkeys3 & HM3) _] & Hdom3)|(w3 & Eloop)];
    [split; [eauto|intros ? ? []]|assumption|apply incl_refl| |];
    rewrite Eloop; [|reflexivity].
  unfold bind at 1. rewrite items_eq, Hd3.
  unfold bind at 1. rewrite truthy_truth.
  destruct (truth_val_in (heap w3) ut) as [given Hgiven].
  { apply (val_in_mono (heap w)); [|assumption].
    rewrite Hdom3. etransitivity; [|exact Hdom2]. simpl.
    now apply subseteq_dom. }
  rewrite Hgiven. rewrite cls_without_text; [reflexivity|].
  assert (dict_get "text" (fold_left (keep_known field_map) its3 []) = None)
    as Hnone.
  { rewrite keep_known_no_text; [reflexivity|].
    rewrite Hkeys3. intros k Hk.
    destruct (Hkeys2 k Hk) as [->|Hk1].
    - split; [discriminate|]. intros Hf. discriminate Hf.
    - apply Hno. now rewrite <- Hkeys1. }
  destruct given; [|exact Hnone].
  rewrite dict_get_set_ne by discriminate. exact Hnone.
Qed.

Lemma from_dict_without_text_is_a_type_error_witness :
  (from_dict (VRef 1%positive) [] VNone example_world).1 = Raises TypeError.
Proof.
  apply (from_dict_without_text_is_a_type_error example_world 1%positive
           [("a", VInt 1)] [] VNone).
  - intros l o. unfold example_world. simpl heap.
    rewrite lookup_insert. case_decide as E.
    + intros [= <-]. repeat constructor.
    + rewrite lookup_empty. discriminate.
  - reflexivity.
  - exact I.
  - intros k [<-|[]]. split; [discriminate|]. intros _. discriminate.
Defined.

End MissingTextFacts.

(** ** rise.py: who is let in *)

Module RiseFacts.
Import rise.

Lemma scan_from name n : forall (l : list Document.t) x,
  exists pointer pre post,
    scan (S (length l) + n) name false
      {| NIterator.it := map Some l; NIterator._has_next := None;
         NIterator._the_next := x |}
    = Some (inr (existsb (is_user name) l), pointer)
    /\ l = pre ++ post
    /\ forallb (fun r => negb (is_user name r)) pre = true
    /\ match post with
       | [] => NIterator.pending pointer = []
       | r :: rest =>
           is_user name r = true
           /\ NIterator.pending pointer = map Some rest
       end.
Proof.
  induction l as [|r l IH]; intros x.
  - eexists _, [], []. split; [reflexivity|]. repeat split.
  - change (S (length (r :: l)) + n) with (S (S (length l) + n)).
    cbn [scan negb]. unfold NIterator.has_next. cbn [NIterator._has_next].
    cbn [NIterator.it map NIterator.py_next NIterator._the_next].
    unfold NIterator.next.
    cbn [NIterator._has_next NIterator.truthy NIterator._the_next
           NIterator.it].
    cbn [existsb]. fold (is_user name r).
    destruct (is_user name r) eqn:Er.
    + eexists _, [], (r :: l). split; [reflexivity|]. repeat split.
      exact Er.
    + destruct (IH (Some r)) as (pointer & pre & post & E & El & Hpre & Hpost).
      exists pointer, (r :: pre), post. split; [exact E|].
      split; [now rewrite El|]. split; [|exact Hpost].
      cbn [forallb]. now rewrite Er.
Qed.

(** X11. The loop of [fn_set_name] ends after one test of its condition more
    than there are documents in the response, at most, and no exception
    comes out of the iterator.  [status] is then whether some document of
    the response has the text of the user; the loop stops at the first such
    document: those before it have another text, and those after it are
    still to come from the iterator.  *)
Theorem authorized_iff_some_text_matches name (response : list Document.t) n :
  exists pointer pre post,
    authorized (S (length response) + n) name response
    = Some (inr (existsb (is_user name) response), pointer)
    /\ response = pre ++ post
    /\ forallb (fun r => negb (is_user name r)) pre = true
    /\ match post with
       | [] => NIterator.pending pointer = []
       | r :: rest =>
           is_user name r = true
           /\ NIterator.pending pointer = map Some rest
       end.
Proof. apply scan_from. Qed.

End RiseFacts.

(** ** [from_dict] of a mapping of recognized fields with scalar values *)

Module FlatFacts.
Import Document RoundTripFacts.

Lemma deepcopy_val_scalar fuel v st :
  scalar v -> deepcopy_val fuel v st = Some (v, st).
Proof.
  intros Hv. destruct v as [| | | | |l]; try (now destruct fuel).
  now destruct (Hv l).
Qed.

Lemma copy_list_scalars fuel vs st :
  Forall scalar vs -> copy_list (deepcopy_val fuel) vs st = Some (vs, st).
Proof.
  induction 1 as [|v vs Hv Hvs IH]; simpl; [reflexivity|].
  rewrite deepcopy_val_scalar by assumption. now rewrite IH.
Qed.

(** The copy of a dict of scalars is one new dict with the same items. *)
Lemma deepcopy_flat w d its :
  heap w !! d = Some (ODict its) -> Forall scalar (map snd its) ->
  deepcopy (VRef d) w
  = (Returns (VRef (fresh (dom (heap w)))),
     set_heap (<[fresh (dom (heap w)):=ODict its]> (heap w)) w).
Proof.
  intros Hd Hs. unfold deepcopy. cbn [deepcopy_val fst snd].
  rewrite lookup_empty, Hd. cbv zeta. cbn [fst snd].
  change (obj_vals (ODict its)) with (map snd its).
  rewrite copy_list_scalars by assumption. cbn [fst snd].
  rewrite insert_insert_eq.
  change (map snd its) with (obj_vals (ODict its)).
  now rewrite CopyFacts.obj_with_vals.
Qed.

Lemma loop_flat D field_map l : forall w,
  Forall (fun kv : string * Val => str_in kv.1 init_args = true) l ->
  for_each l (fold_into_meta D field_map) w = (Returns tt, w).
Proof.
  induction l as [|kv l IH]; intros w Hl; [reflexivity|].
  apply Forall_cons in Hl as [Hkv Hl]. cbn [for_each]. unfold bind.
  unfold fold_into_meta at 1. rewrite Hkv. cbn [negb andb]. unfold ret at 1.
  now apply IH.
Qed.

Lemma keep_known_flat field_map l : forall acc,
  Forall (fun kv : string * Val => str_in kv.1 init_args = true) l ->
  NoDup (map fst acc ++ map fst l) ->
  fold_left (keep_known field_map) l acc = acc ++ l.
Proof.
  induction l as [|[k v] l IH]; intros acc Hl Hnd.
  - now rewrite app_nil_r.
  - apply Forall_cons in Hl as [Hkv Hl]. cbn [fst] in Hkv.
    change (fold_left (keep_known field_map) ((k, v) :: l) acc)
      with (fold_left (keep_known field_map) l
              (keep_known field_map acc (k, v))).
    unfold keep_known at 2. cbn [fst snd]. rewrite Hkv.
    rewrite dict_set_absent.
    + rewrite IH; [now rewrite <- app_assoc|assumption|].
      rewrite map_app, <- app_assoc. exact Hnd.
    + apply dict_get_None. intros Hin.
      apply NoDup_app in Hnd as (_ & Hdisj & _).
      apply (Hdisj k); [now apply list_elem_of_In|]. simpl. left.
Qed.

(** The keywords and the world [from_dict] calls the constructor with. *)
Definition keywords (its : list (string * Val)) (ut : Val) (given : bool)
    (w : World) : list (string * Val) * World :=
  let d' := fresh (dom (heap w)) in
  let h1 := <[d':=ODict its]> (heap w) in
  let mm := fresh (dom h1) in
  let kw := if given then [("uuid_type", ut)] else [] in
  if dict_has "meta" its then (its ++ kw, set_heap h1 w)
  else
    ((its ++ [("meta", VRef mm)]) ++ kw,
     set_heap
       (<[d':=ODict (its ++ [("meta", VRef mm)])]> (<[mm:=ODict []]> h1)) w).

Lemma from_dict_flat w d its field_map ut given :
  heap w !! d = Some (ODict its) ->
  NoDup (map fst its) ->
  Forall (fun kv => str_in kv.1 init_args = true /\ scalar kv.2) its ->
  truth (heap w) ut = Some given ->
  from_dict (VRef d) field_map ut w
  = cls (keywords its ut given w).1 (keywords its ut given w).2
  /\ heap w ⊆ heap (keywords its ut given w).2.
Proof.
  intros Hd Hnd Hflat Hut.
  assert (Forall (fun kv : string * Val => str_in kv.1 init_args = true) its)
    as Hkeys by (eapply Forall_impl; [exact Hflat|]; now intros kv [? _]).
  assert (Forall scalar (map snd its)) as Hsc.
  { apply Forall_map. eapply Forall_impl; [exact Hflat|]. now intros kv [_ ?]. }
  set (d' := fresh (dom (heap w))).
  assert (heap w !! d' = None) as Hd'0 by apply not_elem_of_dom, is_fresh.
  set (h1 := <[d':=ODict its]> (heap w)).
  set (mm := fresh (dom h1)).
  assert (h1 !! mm = None) as Hmm by apply not_elem_of_dom, is_fresh.
  assert (mm <> d') as Hne.
  { intros E. rewrite E in Hmm. unfold h1 in Hmm.
    rewrite lookup_insert_eq in Hmm. discriminate. }
  assert (heap w !! mm = None) as Hmm0.
  { unfold h1 in Hmm. now rewrite lookup_insert_ne in Hmm by congruence. }
  assert (exists its' w2,
            keywords its ut given w
            = (its' ++ (if given then [("uuid_type", ut)] else []), w2)
            /\ (if dict_has "meta" its then ret tt
                else m <- alloc (ODict []) ;;
                     setitem (VRef d') "meta" (VRef m)) (set_heap h1 w)
               = (Returns tt, w2)
            /\ heap w2 !! d' = Some (ODict its')
            /\ heap w ⊆ heap w2
            /\ NoDup (map fst its')
            /\ Forall (fun kv : string * Val =>
                         str_in kv.1 init_args = true) its')
    as (its' & w2 & Ekw & Estep & Hd2 & Hsub & Hnd2 & Hkeys2).
  { unfold keywords. fold d'. fold h1. fold mm. cbv zeta.
    destruct (dict_has "meta" its) eqn:Em.
    - exists its, (set_heap h1 w). split; [reflexivity|].
      split; [reflexivity|]. simpl heap. unfold h1.
      rewrite lookup_insert_eq. split; [reflexivity|].
      split; [now apply insert_subseteq|]. auto.
    - eexists (its ++ [("meta", VRef mm)]), _. split; [reflexivity|].
      assert (dict_get "meta" its = None) as Eg.
      { unfold dict_has in Em. now destruct (dict_get "meta" its). }
      split.
      { unfold bind, alloc. rewrite setitem_eq. simpl heap. fold mm.
        rewrite lookup_insert_ne by assumption. unfold h1 at 1.
        rewrite lookup_insert_eq. now rewrite dict_set_absent by assumption. }
      simpl heap. rewrite lookup_insert_eq. split; [reflexivity|].
      split.
      { apply map_subseteq_spec. intros l o Hl.
        rewrite lookup_insert_ne by congruence.
        rewrite lookup_insert_ne by congruence.
        unfold h1. rewrite lookup_insert_ne by congruence. exact Hl. }
      split.
      { rewrite map_app. simpl. apply NoDup_app. split; [assumption|].
        split; [|repeat constructor; set_solver].
        intros k Hk Hk'. apply list_elem_of_In in Hk.
        apply dict_get_None in Eg. apply Eg.
        apply list_elem_of_In in Hk'. destruct Hk' as [<-|[]]. assumption. }
      apply Forall_app. split; [assumption|]. now repeat constructor. }
  rewrite Ekw. cbn [fst snd]. split; [|exact Hsub].
  unfold from_dict. unfold bind at 1. rewrite (deepcopy_flat w d its Hd Hsc).
  fold d'. fold h1.
  unfold bind at 1. rewrite items_eq. simpl heap. unfold h1 at 1.
  rewrite lookup_insert_eq.
  unfold bind at 1. rewrite Estep.
  unfold bind at 1. rewrite items_eq, Hd2.
  unfold bind at 1. rewrite loop_flat by assumption.
  unfold bind at 1. rewrite items_eq, Hd2.
  unfold bind at 1. rewrite truthy_truth.
  rewrite (truth_weaken _ _ _ _ Hsub Hut).
  rewrite keep_known_flat by assumption. cbn [app].
  destruct given; [|now rewrite app_nil_r].
  rewrite dict_set_absent; [reflexivity|].
  apply dict_get_None. intros Hin. apply in_map_iff in Hin as (kv & E & Hin).
  rewrite List.Forall_forall in Hkeys2. apply Hkeys2 in Hin.
  rewrite E in Hin. discriminate.
Qed.

(** X9. For a mapping all of whose keys are recognized fields and all of
    whose values are scalars, [from_dict] is the constructor called with
    the items of the mapping as keywords, and [uuid_type] if it counts as
    true, and a new empty dict as [meta] if the mapping has none: the field
    map plays no role, and the objects there were are left as they were. *)
Theorem from_dict_of_recognized_scalars w d its field_map ut given :
  heap w !! d = Some (ODict its) ->
  NoDup (map fst its) ->
  Forall (fun kv => str_in kv.1 init_args = true /\ scalar kv.2) its ->
  truth (heap w) ut = Some given ->
  from_dict (VRef d) field_map ut w = from_dict (VRef d) [] ut w
  /\ exists kwargs w2,
       from_dict (VRef d) field_map ut w = cls kwargs w2
       /\ heap w ⊆ heap w2
       /\ (forall k v, In (k, v) its -> dict_get k kwargs = Some v)
       /\ dict_get "uuid_type" kwargs = (if given then Some ut else None)
       /\ (dict_has "meta" its = false ->
           exists mm,
             dict_get "meta" kwargs = Some (VRef mm)
             /\ heap w !! mm = None
             /\ heap w2 !! mm = Some (ODict [])).
Proof.
  intros Hd Hnd Hflat Hut.
  destruct (from_dict_flat w d its field_map ut given Hd Hnd Hflat Hut)
    as [E Hsub].
  destruct (from_dict_flat w d its [] ut given Hd Hnd Hflat Hut) as [E0 _].
  split; [congruence|].
  eexists _, _. split; [exact E|]. split; [exact Hsub|].
  assert (dict_get "uuid_type" its = None) as Hu.
  { apply dict_get_None. intros Hin.
    apply in_map_iff in Hin as (kv & Ek & Hin).
    rewrite List.Forall_forall in Hflat. apply Hflat in Hin as [Hin _].
    rewrite Ek in Hin. discriminate. }
  set (d' := fresh (dom (heap w))).
  assert (heap w !! d' = None) as Hd'0 by apply not_elem_of_dom, is_fresh.
  set (h1 := <[d':=ODict its]> (heap w)).
  set (mm := fresh (dom h1)).
  assert (h1 !! mm = None) as Hmm by apply not_elem_of_dom, is_fresh.
  assert (mm <> d') as Hne.
  { intros E'. rewrite E' in Hmm. unfold h1 in Hmm.
    rewrite lookup_insert_eq in Hmm. discriminate. }
  assert (heap w !! mm = None) as Hmm0.
  { unfold h1 in Hmm. now rewrite lookup_insert_ne in Hmm by congruence. }
  unfold keywords. fold d'. fold h1. fold mm. cbv zeta.
  destruct (dict_has "meta" its) eqn:Em; cbn [fst snd].
  - split; [|split; [|discriminate]].
    + intros k v Hin. rewrite dict_get_app.
      now rewrite (dict_get_NoDup _ _ _ Hnd Hin).
    + rewrite dict_get_app, Hu. now destruct given.
  - assert (dict_get "meta" its = None) as Eg.
    { unfold dict_has in Em. now destruct (dict_get "meta" its). }
    split; [|split].
    + intros k v Hin. rewrite !dict_get_app.
      now rewrite (dict_get_NoDup _ _ _ Hnd Hin).
    + rewrite !dict_get_app, Hu. cbn [dict_get].
      change (String.eqb "uuid_type" "meta") with false. cbv iota.
      now destruct given.
    + intros _. exists mm. rewrite !dict_get_app, Eg. cbn [dict_get].
      change (String.eqb "meta" "meta") with true. cbv iota.
      split; [reflexivity|]. split; [exact Hmm0|]. simpl heap.
      rewrite lookup_insert_ne by congruence. apply lookup_insert_eq.
Qed.

Lemma from_dict_of_recognized_scalars_witness :
  from_dict (VRef 1%positive) [("a", "text")] VNone
    {| proc := example_process; drawn := 0;
       heap := <[1%positive:=ODict [("text", VStr "t")]]> ∅ |}
  = from_dict (VRef 1%positive) [] VNone
      {| proc := example_process; drawn := 0;
         heap := <[1%positive:=ODict [("text", VStr "t")]]> ∅ |}.
Proof.
  refine (proj1 (from_dict_of_recognized_scalars _ 1%positive
                   [("text", VStr "t")] [("a", "text")] VNone false
                   _ _ _ _)).
  - reflexivity.
  - repeat constructor; set_solver.
  - repeat constructor. intros l. discriminate.
  - reflexivity.
Defined.


End FlatFacts.
